(** * github-backup: the synchronisation engine of [main.py]

    A shallow embedding of [main.py] (GitHub organisations backup script) and
    the properties of its specification.

    The script is sequential Python that talks to three outside parties: the
    GitHub API (PyGithub), git (GitPython) and the filesystem (pathlib).  The
    embedding keeps the control flow of every function of the script, with
    its try/except blocks and its [sys.exit] calls, in a small monad that
    threads the state of the outside world, may stop with an exception or a
    process exit, and records every outside call and every log record in a
    trace.  What the outside parties answer is a parameter ([Externals]):
    the theorems hold for every behaviour of GitHub, git and the disk. *)

From Stdlib Require Import String List ZArith.
Import ListNotations.
Set Warnings "-register-all".
Open Scope string_scope.
Open Scope list_scope.

(** ** Python values and exceptions *)

(** The exception classes the script names in its [except] clauses, the ones
    raised by the modelled builtins, and any other subclass of [Exception].
    A subclass of a named class counts as that class. *)
Inductive ExcClass : Type :=
| GitCommandError
| GithubException
| FileNotFoundError
| YAMLError
| KeyError
| TypeError
| AttributeError
| OtherError (name : string).

Record Exception : Type := mkExc { exc_class : ExcClass; exc_str : string }.

Definition is_GitCommandError (e : Exception) : bool :=
  match exc_class e with GitCommandError => true | _ => false end.

Definition is_GithubException (e : Exception) : bool :=
  match exc_class e with GithubException => true | _ => false end.

Definition is_FileNotFoundError (e : Exception) : bool :=
  match exc_class e with FileNotFoundError => true | _ => false end.

Definition is_YAMLError (e : Exception) : bool :=
  match exc_class e with YAMLError => true | _ => false end.

(** What [yaml.safe_load] can return; a mapping is kept in lookup order. *)
Inductive Value : Type :=
| VNone
| VBool (b : bool)
| VInt (z : Z)
| VStr (s : string)
| VList (l : list Value)
| VDict (d : list (string * Value)).

Fixpoint assoc (k : string) (d : list (string * Value)) : option Value :=
  match d with
  | [] => None
  | (k', v) :: d' => if String.eqb k k' then Some v else assoc k d'
  end.

(** [v[k]] for a string key [k]. *)
Definition getitem (v : Value) (k : string) : Exception + Value :=
  match v with
  | VDict d =>
      match assoc k d with
      | Some x => inr x
      | None => inl (mkExc KeyError k)
      end
  | _ => inl (mkExc TypeError "object is not subscriptable with a str")
  end.

(** Python truth value, as tested by [if not x]. *)
Definition truthy (v : Value) : bool :=
  match v with
  | VNone => false
  | VBool b => b
  | VInt z => negb (Z.eqb z 0)
  | VStr s => negb (String.eqb s "")
  | VList l => match l with [] => false | _ => true end
  | VDict d => match d with [] => false | _ => true end
  end.

(** The items a [for] loop over [v] visits. *)
Definition py_iter (v : Value) : Exception + list Value :=
  match v with
  | VList l => inr l
  | VDict d => inr (map (fun kv => VStr (fst kv)) d)
  | VStr s => inr (map (fun c => VStr (String c EmptyString)) (list_ascii_of_string s))
  | _ => inl (mkExc TypeError "object is not iterable")
  end.

(** ** Objects of the libraries *)

(** A [pathlib.Path], by its string. *)
Definition Path : Type := string.

(** A PyGithub organisation and repository, by the attributes the script reads. *)
Record Org : Type := mkOrg { login : string }.
Record Repository : Type := mkRepository { name : string; clone_url : string }.

(** The PyGithub client, by the arguments it was built with. *)
Record Client : Type := mkClient { auth : Value; per_page : Z }.

(** A GitPython remote and an opened [Repo]. *)
Record Remote : Type := mkRemote { remote_name : string; remote_url : string }.
Record Repo : Type := mkRepo { working_dir : Path; remotes : list Remote }.

(** [repo.remotes.origin]: attribute access on GitPython's [IterableList]
    returns the first item whose name is the attribute, and raises
    [AttributeError] when there is none. *)
Definition remotes_getattr (l : list Remote) (attr : string) : Exception + Remote :=
  match find (fun r => String.eqb (remote_name r) attr) l with
  | Some r => inr r
  | None => inl (mkExc AttributeError attr)
  end.

(** ** Log records and calls *)

Inductive Level : Type := INFO | ERROR.

(** One constructor per format string of the script, with the values it
    interpolates. *)
Inductive Msg : Type :=
| Config_not_found (config_path : string)   (* "Configuration file {config_path} not found." *)
| Yaml_parse_error (e : Exception)          (* "Error parsing YAML file: {e}" *)
| Accessed_organization (name : Value)      (* "Accessed organization: {name}" *)
| Access_failed (name : Value) (e : Exception)
                                            (* "Failed to access organization '{name}': {e}" *)
| Retrieved (n : nat) (org_login : string)  (* "Retrieved {n} repositories from organization '{login}'." *)
| Retrieve_failed (org_login : string) (e : Exception)
                                            (* "Failed to retrieve repositories for organization '{login}': {e}" *)
| Cloning (repo_url : string) (local_path : Path)
                                            (* "Cloning repository: {repo_url} into {local_path}" *)
| Cloned_ok (repo_url : string)             (* "Successfully cloned: {repo_url}" *)
| Clone_failed (repo_url : string) (e : Exception)
                                            (* "Failed to clone {repo_url}: {e}" *)
| Pulling (repo_url : string)               (* "Pulling latest changes for repository: {repo_url}" *)
| Pulled_ok (repo_url : string)             (* "Successfully pulled updates for: {repo_url}" *)
| Pull_failed (repo_url : string) (e : Exception)
                                            (* "Failed to pull updates for {repo_url}: {e}" *)
| Unexpected_error (repo_url : string) (e : Exception)
                                            (* "Unexpected error with {repo_url}: {e}" *)
| Token_missing                             (* "GitHub token not provided in configuration." *)
| No_organizations                          (* "No valid organizations found. Exiting." *)
| Backup_dir_set (resolved : Path)          (* "Backup directory set to: {backup_dir.resolve()}" *)
| Completed.                                (* "Backup process completed successfully." *)

(** The calls the script makes to the outside. *)
Inductive Call : Type :=
| C_read_config (config_path : string)
| C_setup_logging (log_file : Value)
| C_Github (token : Value) (page : Z)
| C_get_organization (name : Value)
| C_get_repos (org : Org)
| C_Path (v : Value)
| C_exists (p : Path)
| C_mkdir (p : Path)
| C_resolve (p : Path)
| C_clone_from (url : string) (p : Path)
| C_Repo (p : Path)
| C_pull (repo : Repo) (remote : Remote).

Inductive Event : Type :=
| Log (lvl : Level) (m : Msg)
| Called (c : Call).

(** ** The outside world *)

(** The answers of the outside world, each a function of the world's state
    that either raises or returns, and leaves a new state. *)
Class Externals (W : Type) : Type := {
  (* open(config_path, 'r') and yaml.safe_load(file) *)
  read_config : string -> W -> (Exception + Value) * W;
  (* logging.basicConfig(filename=log_file, ...) and the console handler *)
  logging_setup : Value -> W -> (Exception + unit) * W;
  (* Github(token, per_page=100) *)
  Github : Value -> Z -> W -> (Exception + Client) * W;
  (* github_client.get_organization(name) *)
  get_organization : Client -> Value -> W -> (Exception + Org) * W;
  (* list(org.get_repos()) *)
  get_repos : Org -> W -> (Exception + list Repository) * W;
  (* Path(x) *)
  Path_new : Value -> W -> (Exception + Path) * W;
  (* p / segment *)
  joinpath : Path -> string -> Path;
  (* p.exists() *)
  path_exists : Path -> W -> (Exception + bool) * W;
  (* p.mkdir(parents=True, exist_ok=True) *)
  path_mkdir : Path -> W -> (Exception + unit) * W;
  (* p.resolve() *)
  path_resolve : Path -> W -> (Exception + Path) * W;
  (* Repo.clone_from(url, p) *)
  clone_from : string -> Path -> W -> (Exception + unit) * W;
  (* Repo(p) *)
  Repo_open : Path -> W -> (Exception + Repo) * W;
  (* remote.pull() *)
  pull : Repo -> Remote -> W -> (Exception + unit) * W
}.

(** ** The monad of the script *)

(** How a piece of the script ends: normally, with an exception on its way
    up, or with [SystemExit] (which is not an [Exception], so that no
    [except Exception] stops it). *)
Inductive Res (A : Type) : Type :=
| Ok (a : A)
| Raise (e : Exception)
| Exit (code : Z).
Arguments Ok {A} a.
Arguments Raise {A} e.
Arguments Exit {A} code.

Record Run (W A : Type) : Type := mkRun {
  result : Res A;
  world : W;
  trace : list Event
}.
Arguments mkRun {W A} result world trace.
Arguments result {W A} r.
Arguments world {W A} r.
Arguments trace {W A} r.

Definition M (W A : Type) : Type := W -> Run W A.

Definition ret {W A} (a : A) : M W A := fun w => mkRun (Ok a) w [].

Definition bind {W A B} (m : M W A) (f : A -> M W B) : M W B :=
  fun w =>
    match m w with
    | mkRun (Ok a) w1 t1 =>
        match f a w1 with
        | mkRun r w2 t2 => mkRun r w2 (t1 ++ t2)
        end
    | mkRun (Raise e) w1 t1 => mkRun (Raise e) w1 t1
    | mkRun (Exit c) w1 t1 => mkRun (Exit c) w1 t1
    end.

Notation "x <- m ;; k" := (bind m (fun x => k))
  (at level 61, m at next level, right associativity).
Notation "m ;; k" := (bind m (fun _ => k))
  (at level 61, right associativity).

(** [raise e] of a pure builtin. *)
Definition lift {W A} (r : Exception + A) : M W A :=
  fun w => match r with
           | inl e => mkRun (Raise e) w []
           | inr a => mkRun (Ok a) w []
           end.

(** A call to the outside, recorded in the trace. *)
Definition call {W A} (c : Call) (f : W -> (Exception + A) * W) : M W A :=
  fun w => match f w with
           | (inl e, w1) => mkRun (Raise e) w1 [Called c]
           | (inr a, w1) => mkRun (Ok a) w1 [Called c]
           end.

(** [logging.info], [logging.error]. *)
Definition log {W} (lvl : Level) (m : Msg) : M W unit :=
  fun w => mkRun (Ok tt) w [Log lvl m].

(** [sys.exit(code)]. *)
Definition sys_exit {W A} (code : Z) : M W A :=
  fun w => mkRun (Exit code) w [].

(** [try: body  except ...:] where [handler e] is the first clause that
    matches [e], if one does. *)
Definition try_except {W A} (body : M W A) (handler : Exception -> option (M W A)) : M W A :=
  fun w =>
    match body w with
    | mkRun (Raise e) w1 t1 =>
        match handler e with
        | Some h => match h w1 with
                    | mkRun r w2 t2 => mkRun r w2 (t1 ++ t2)
                    end
        | None => mkRun (Raise e) w1 t1
        end
    | r => r
    end.

(** [for x in l: body]. *)
Fixpoint for_each {W A} (body : A -> M W unit) (l : list A) : M W unit :=
  match l with
  | [] => ret tt
  | x :: xs => body x ;; for_each body xs
  end.

(** The exit status of the process: an exception that reaches the top makes
    the interpreter print it and exit with status 1. *)
Definition exit_status {A} (r : Res A) : Z :=
  match r with
  | Ok _ => 0
  | Raise _ => 1
  | Exit c => c
  end.

(** ** The script *)

Definition CONFIG_FILE : string := "config.yaml".

Section Script.
Context {W : Type} {E : Externals W}.

(* main.py:23-34 *)
Definition load_config (config_path : string) : M W Value :=
  try_except
    (config <- call (C_read_config config_path) (read_config config_path) ;;
     ret config)
    (fun e =>
       if is_FileNotFoundError e then
         Some (log ERROR (Config_not_found config_path) ;; sys_exit 1)
       else if is_YAMLError e then
         Some (log ERROR (Yaml_parse_error e) ;; sys_exit 1)
       else None).

(* main.py:36-49 *)
Definition setup_logging (log_file : Value) : M W unit :=
  call (C_setup_logging log_file) (logging_setup log_file).

(* main.py:54-60, the body of the loop; [orgs] is the list built so far *)
Definition get_organizations_step (github_client : Client) (orgs : list Org) (name : Value)
  : M W (list Org) :=
  try_except
    (org <- call (C_get_organization name) (get_organization github_client name) ;;
     log INFO (Accessed_organization name) ;;
     ret (orgs ++ [org]))
    (fun e =>
       if is_GithubException e then
         Some (log ERROR (Access_failed name e) ;; ret orgs)
       else None).

Fixpoint get_organizations_loop (github_client : Client) (names : list Value) (orgs : list Org)
  : M W (list Org) :=
  match names with
  | [] => ret orgs
  | name :: rest =>
      orgs' <- get_organizations_step github_client orgs name ;;
      get_organizations_loop github_client rest orgs'
  end.

(* main.py:51-61 *)
Definition get_organizations (github_client : Client) (org_names : Value) : M W (list Org) :=
  names <- lift (py_iter org_names) ;;
  get_organizations_loop github_client names [].

(* main.py:63-72 *)
Definition get_repositories (org : Org) : M W (list Repository) :=
  try_except
    (repo_list <- call (C_get_repos org) (get_repos org) ;;
     log INFO (Retrieved (length repo_list) (login org)) ;;
     ret repo_list)
    (fun e =>
       if is_GithubException e then
         Some (log ERROR (Retrieve_failed (login org) e) ;; ret [])
       else None).

(* main.py:74-93 *)
Definition clone_or_pull_repo (repo_url : string) (local_path : Path) : M W unit :=
  present <- call (C_exists local_path) (path_exists local_path) ;;
  if negb present then
    try_except
      (log INFO (Cloning repo_url local_path) ;;
       call (C_clone_from repo_url local_path) (clone_from repo_url local_path) ;;
       log INFO (Cloned_ok repo_url))
      (fun e =>
         if is_GitCommandError e then Some (log ERROR (Clone_failed repo_url e))
         else None)
  else
    try_except
      (repo <- call (C_Repo local_path) (Repo_open local_path) ;;
       log INFO (Pulling repo_url) ;;
       origin <- lift (remotes_getattr (remotes repo) "origin") ;;
       call (C_pull repo origin) (pull repo origin) ;;
       log INFO (Pulled_ok repo_url))
      (fun e =>
         if is_GitCommandError e then Some (log ERROR (Pull_failed repo_url e))
         else Some (log ERROR (Unexpected_error repo_url e))).

(* main.py:125-130, the body of the inner loop *)
Definition main_repo (backup_dir : Path) (org : Org) (repo : Repository) : M W unit :=
  let repo_name := name repo in
  let repo_clone_url := clone_url repo in
  let org_dir := joinpath backup_dir (login org) in
  call (C_mkdir org_dir) (path_mkdir org_dir) ;;
  let local_repo_path := joinpath org_dir repo_name in
  clone_or_pull_repo repo_clone_url local_repo_path.

(* main.py:123-130, the body of the outer loop *)
Definition main_org (backup_dir : Path) (org : Org) : M W unit :=
  repos <- get_repositories org ;;
  for_each (main_repo backup_dir org) repos.

(* main.py:95-132 *)
Definition main : M W unit :=
  config <- load_config CONFIG_FILE ;;
  backup <- lift (getitem config "backup") ;;
  log_file <- lift (getitem backup "log_file") ;;
  setup_logging log_file ;;
  github <- lift (getitem config "github") ;;
  github_token <- lift (getitem github "token") ;;
  (if negb (truthy github_token) then
     log ERROR Token_missing ;; sys_exit 1
   else ret tt) ;;
  github_client <- call (C_Github github_token 100) (Github github_token 100) ;;
  github' <- lift (getitem config "github") ;;
  org_names <- lift (getitem github' "organizations") ;;
  organizations <- get_organizations github_client org_names ;;
  (match organizations with
   | [] => log ERROR No_organizations ;; sys_exit 1
   | _ => ret tt
   end) ;;
  backup' <- lift (getitem config "backup") ;;
  destination_path <- lift (getitem backup' "destination_path") ;;
  backup_dir <- call (C_Path destination_path) (Path_new destination_path) ;;
  call (C_mkdir backup_dir) (path_mkdir backup_dir) ;;
  resolved <- call (C_resolve backup_dir) (path_resolve backup_dir) ;;
  log INFO (Backup_dir_set resolved) ;;
  for_each (main_org backup_dir) organizations ;;
  log INFO Completed.

End Script.

(** ** What a run shows *)

(** The result of one sync, as the log shows it (the script returns nothing). *)
Inductive Outcome : Type :=
| Cloned
| Updated
| Failed (reason : Exception).

Definition msg_outcome (m : Msg) : option (string * Outcome) :=
  match m with
  | Cloned_ok u => Some (u, Cloned)
  | Pulled_ok u => Some (u, Updated)
  | Clone_failed u e => Some (u, Failed e)
  | Pull_failed u e => Some (u, Failed e)
  | Unexpected_error u e => Some (u, Failed e)
  | _ => None
  end.

(** The outcomes a trace records, by repository URL, in order. *)
Fixpoint outcomes (t : list Event) : list (string * Outcome) :=
  match t with
  | [] => []
  | Log _ m :: t' =>
      match msg_outcome m with
      | Some o => o :: outcomes t'
      | None => outcomes t'
      end
  | Called _ :: t' => outcomes t'
  end.

(** The outside calls of a trace, in order. *)
Fixpoint calls_of (t : list Event) : list Call :=
  match t with
  | [] => []
  | Called c :: t' => c :: calls_of t'
  | Log _ _ :: t' => calls_of t'
  end.

(** The organisations a trace reports as accessed. *)
Fixpoint accessed_orgs (t : list Event) : list Value :=
  match t with
  | [] => []
  | Log INFO (Accessed_organization n) :: t' => n :: accessed_orgs t'
  | _ :: t' => accessed_orgs t'
  end.

(** Calls that write to the disk (the logging setup opens the log file for
    append), and calls that belong to the processing of repositories. *)
Definition is_fs_write (c : Call) : bool :=
  match c with
  | C_setup_logging _ | C_mkdir _ | C_clone_from _ _ | C_pull _ _ => true
  | _ => false
  end.

(** The paths a trace writes to, in order. [log_to] is the file the log
    records go to: none before [logging.basicConfig(filename=log_file)], where
    a record only reaches the console, and [log_file] from then on, each
    record being appended to it. *)
Fixpoint written_paths (log_to : option Path) (t : list Event) : list Path :=
  match t with
  | [] => []
  | Log _ _ :: t' =>
      match log_to with
      | Some f => f :: written_paths log_to t'
      | None => written_paths log_to t'
      end
  | Called (C_setup_logging (VStr f)) :: t' => f :: written_paths (Some f) t'
  | Called (C_mkdir p) :: t' => p :: written_paths log_to t'
  | Called (C_clone_from _ p) :: t' => p :: written_paths log_to t'
  | Called (C_pull repo _) :: t' => working_dir repo :: written_paths log_to t'
  | Called _ :: t' => written_paths log_to t'
  end.

(** [p] lies below the directory [root] (both as POSIX path strings). *)
Definition under (root p : Path) : bool := String.prefix (root ++ "/")%string p.

Definition is_repo_processing (c : Call) : bool :=
  match c with
  | C_get_repos _ | C_exists _ | C_mkdir _ | C_clone_from _ _ | C_Repo _ | C_pull _ _ => true
  | _ => false
  end.

Definition is_clone_call (c : Call) : bool :=
  match c with C_clone_from _ _ => true | _ => false end.

Definition is_update_call (c : Call) : bool :=
  match c with C_Repo _ | C_pull _ _ => true | _ => false end.

(** ** A small world to run the script in *)

Module Toy.

Inductive Node : Type :=
| File
| Dir
| Clone (rs : list Remote) (tip : nat).

Record World : Type := mkWorld {
  config : Exception + Value;                          (* what reading config.yaml gives *)
  orgs : list (string * (Exception + Org));            (* GitHub: organisation by name *)
  repos : list (string * (Exception + list Repository)); (* GitHub: repositories by login *)
  upstream : list (string * nat);                      (* reachable clone URLs and their tip *)
  git_installed : bool;
  read_only : list Path;                               (* where mkdir is denied *)
  fs : list (Path * Node)
}.

Fixpoint lookup {A} (k : string) (l : list (string * A)) : option A :=
  match l with
  | [] => None
  | (k', v) :: l' => if String.eqb k k' then Some v else lookup k l'
  end.

Fixpoint update {A} (k : string) (v : A) (l : list (string * A)) : list (string * A) :=
  match l with
  | [] => [(k, v)]
  | (k', v') :: l' => if String.eqb k k' then (k, v) :: l' else (k', v') :: update k v l'
  end.

Definition set_fs (w : World) (f : list (Path * Node)) : World :=
  mkWorld (config w) (orgs w) (repos w) (upstream w) (git_installed w) (read_only w) f.

Definition t_get_organization (c : Client) (n : Value) (w : World) : (Exception + Org) * World :=
  match n with
  | VStr s =>
      match lookup s (orgs w) with
      | Some r => (r, w)
      | None => (inl (mkExc GithubException "404 Not Found"), w)
      end
  | _ => (inl (mkExc (OtherError "AssertionError") "login"), w)
  end.

Definition t_get_repos (o : Org) (w : World) : (Exception + list Repository) * World :=
  match lookup (login o) (repos w) with
  | Some r => (r, w)
  | None => (inr [], w)
  end.

Definition t_Path_new (v : Value) (w : World) : (Exception + Path) * World :=
  match v with
  | VStr s => (inr s, w)
  | _ => (inl (mkExc TypeError "expected str, bytes or os.PathLike object"), w)
  end.

Definition t_exists (p : Path) (w : World) : (Exception + bool) * World :=
  (inr (match lookup p (fs w) with Some _ => true | None => false end), w).

Definition t_mkdir (p : Path) (w : World) : (Exception + unit) * World :=
  if existsb (String.eqb p) (read_only w) then
    (inl (mkExc (OtherError "PermissionError") p), w)
  else
    match lookup p (fs w) with
    | Some File => (inl (mkExc (OtherError "FileExistsError") p), w)
    | Some _ => (inr tt, w)
    | None => (inr tt, set_fs w (update p Dir (fs w)))
    end.

Definition t_clone_from (url : string) (p : Path) (w : World) : (Exception + unit) * World :=
  if negb (git_installed w) then
    (inl (mkExc (OtherError "GitCommandNotFound") "git"), w)
  else
    match lookup url (upstream w) with
    | Some tip => (inr tt, set_fs w (update p (Clone [mkRemote "origin" url] tip) (fs w)))
    | None => (inl (mkExc GitCommandError "repository not found"), w)
    end.

Definition t_Repo_open (p : Path) (w : World) : (Exception + Repo) * World :=
  match lookup p (fs w) with
  | Some (Clone rs _) => (inr (mkRepo p rs), w)
  | Some _ => (inl (mkExc (OtherError "InvalidGitRepositoryError") p), w)
  | None => (inl (mkExc (OtherError "NoSuchPathError") p), w)
  end.

(** Tip 0 stands for a repository without any commit: it can be cloned, and
    the pull then finds no ref to merge. *)
Definition t_pull (r : Repo) (o : Remote) (w : World) : (Exception + unit) * World :=
  match lookup (remote_url o) (upstream w) with
  | Some O => (inl (mkExc GitCommandError "no such ref was fetched"), w)
  | Some tip => (inr tt, set_fs w (update (working_dir r) (Clone (remotes r) tip) (fs w)))
  | None => (inl (mkExc GitCommandError "could not read from remote repository"), w)
  end.

#[export] Instance toy : Externals World := {
  read_config := fun _ w => (config w, w);
  logging_setup := fun _ w => (inr tt, w);
  Github := fun tok page w => (inr (mkClient tok page), w);
  get_organization := t_get_organization;
  get_repos := t_get_repos;
  Path_new := t_Path_new;
  joinpath := fun p s => (p ++ "/" ++ s)%string;
  path_exists := t_exists;
  path_mkdir := t_mkdir;
  path_resolve := fun p w => (inr p, w);
  clone_from := t_clone_from;
  Repo_open := t_Repo_open;
  pull := t_pull
}.

(** The configuration every example uses. *)
Definition config_acme : Value :=
  VDict [("github", VDict [("token", VStr "t0ken");
                           ("organizations", VList [VStr "acme"])]);
         ("backup", VDict [("destination_path", VStr "/backup");
                           ("log_file", VStr "backup.log")])].

Definition acme : Org := mkOrg "acme".
Definition svc_a : Repository := mkRepository "svc-a" "https://invalid.example/svc-a.git".
Definition svc_b : Repository := mkRepository "svc-b" "https://github.com/acme/svc-b.git".

(** Organisation acme with svc-a (unreachable URL) and svc-b, nothing on disk. *)
Definition scenario : World :=
  mkWorld (inr config_acme)
          [("acme", inr acme)]
          [("acme", inr [svc_a; svc_b])]
          [("https://github.com/acme/svc-b.git", 7%nat)]
          true [] [].

(** The scenario on a machine without git. *)
Definition no_git : World :=
  mkWorld (config scenario) (orgs scenario) (repos scenario) (upstream scenario)
          false [] [].

(** The scenario with [/backup/acme/svc-b] present as a plain directory, and
    with it present as a repository whose only remote is called [upstream]. *)
Definition plain_dir : World :=
  set_fs scenario [("/backup/acme/svc-b", Dir)].


(** The scenario where the directory of acme cannot be created. *)
Definition read_only_org_dir : World :=
  mkWorld (config scenario) (orgs scenario) (repos scenario) (upstream scenario)
          true ["/backup/acme"] [("/backup", Dir)].

(** The scenario where GitHub does not know the organisation. *)
Definition unknown_org : World :=
  mkWorld (config scenario) [] [] (upstream scenario) true [] [].

(** The scenario where listing the repositories of acme fails. *)
Definition listing_fails : World :=
  mkWorld (config scenario) (orgs scenario)
          [("acme", inl (mkExc GithubException "502 Bad Gateway"))]
          (upstream scenario) true [] [].

Definition svc_b_path : Path := "/backup/acme/svc-b".

(** Worlds for the start of a run: no configuration file, a file that
    cannot be read, an empty file, an empty token, and a scalar where the
    list of organisations is expected. *)
Definition with_config (c : Exception + Value) : World :=
  mkWorld c (orgs scenario) (repos scenario) (upstream scenario) true [] [].

Definition missing_config : World :=
  with_config (inl (mkExc FileNotFoundError "config.yaml")).

Definition unreadable_config : World :=
  with_config (inl (mkExc (OtherError "PermissionError") "config.yaml")).

Definition empty_config : World := with_config (inr VNone).

Definition config_no_token : Value :=
  VDict [("github", VDict [("token", VStr "");
                           ("organizations", VList [VStr "acme"])]);
         ("backup", VDict [("destination_path", VStr "/backup");
                           ("log_file", VStr "backup.log")])].

Definition no_token : World := with_config (inr config_no_token).

(** The scenario where the listing of acme breaks with an error that is not
    the API client's. *)
Definition listing_breaks : World :=
  mkWorld (config scenario) (orgs scenario)
          [("acme", inl (mkExc (OtherError "ConnectionError") "connection reset"))]
          (upstream scenario) true [] [].

(** Nothing resolves, the backup root is there and the log file is
    configured inside it. *)
Definition config_log_under_root : Value :=
  VDict [("github", VDict [("token", VStr "t0ken");
                           ("organizations", VList [VStr "acme"])]);
         ("backup", VDict [("destination_path", VStr "/backup");
                           ("log_file", VStr "/backup/backup.log")])].

Definition log_under_root : World :=
  mkWorld (inr config_log_under_root) [] [] [] true [] [("/backup", Dir)].

(** Two organisations are configured; the lookup of the first breaks with a
    network error, the second would resolve. *)
Definition globex : Org := mkOrg "globex".

Definition config_two_orgs : Value :=
  VDict [("github", VDict [("token", VStr "t0ken");
                           ("organizations", VList [VStr "acme"; VStr "globex"])]);
         ("backup", VDict [("destination_path", VStr "/backup");
                           ("log_file", VStr "backup.log")])].

Definition resolution_breaks : World :=
  mkWorld (inr config_two_orgs)
          [("acme", inl (mkExc (OtherError "ConnectionError") "connection reset"));
           ("globex", inr globex)]
          [] [] true [] [].

(** The scenario where svc-b has no commit yet. *)
Definition empty_upstream : World :=
  mkWorld (config scenario) (orgs scenario) (repos scenario)
          [("https://github.com/acme/svc-b.git", 0%nat)]
          true [] [].

End Toy.

(** ** Notions used to state the properties *)

(** [prefixed t r]: the run [r] after the events [t]. *)
Definition prefixed {W A} (t : list Event) (r : Run W A) : Run W A :=
  mkRun (result r) (world r) (t ++ trace r).

(** Every event a computation emits satisfies [P], from every world. *)
Definition emits {W A} (P : Event -> Prop) (m : M W A) : Prop :=
  forall w, Forall P (trace (m w)).

(** The log record of the update branch's two handlers. *)
Definition update_failure (url : string) (e : Exception) : Msg :=
  if is_GitCommandError e then Pull_failed url e else Unexpected_error url e.

Section SyncCases.
Context {W : Type} {E : Externals W}.

(** Every way a sync can go. *)
Inductive SyncCase (url : string) (p : Path) (w : W) : Run W unit -> Prop :=
| Sync_exists_raises e w0 :
    path_exists p w = (inl e, w0) ->
    SyncCase url p w (mkRun (Raise e) w0 [Called (C_exists p)])
| Sync_cloned w0 w1 :
    path_exists p w = (inr false, w0) ->
    clone_from url p w0 = (inr tt, w1) ->
    SyncCase url p w
      (mkRun (Ok tt) w1
         [Called (C_exists p); Log INFO (Cloning url p);
          Called (C_clone_from url p); Log INFO (Cloned_ok url)])
| Sync_clone_failed w0 w1 e :
    path_exists p w = (inr false, w0) ->
    clone_from url p w0 = (inl e, w1) ->
    is_GitCommandError e = true ->
    SyncCase url p w
      (mkRun (Ok tt) w1
         [Called (C_exists p); Log INFO (Cloning url p);
          Called (C_clone_from url p); Log ERROR (Clone_failed url e)])
| Sync_clone_escapes w0 w1 e :
    path_exists p w = (inr false, w0) ->
    clone_from url p w0 = (inl e, w1) ->
    is_GitCommandError e = false ->
    SyncCase url p w
      (mkRun (Raise e) w1
         [Called (C_exists p); Log INFO (Cloning url p); Called (C_clone_from url p)])
| Sync_open_failed w0 w1 e :
    path_exists p w = (inr true, w0) ->
    Repo_open p w0 = (inl e, w1) ->
    SyncCase url p w
      (mkRun (Ok tt) w1
         [Called (C_exists p); Called (C_Repo p); Log ERROR (update_failure url e)])
| Sync_no_origin w0 w1 h e :
    path_exists p w = (inr true, w0) ->
    Repo_open p w0 = (inr h, w1) ->
    remotes_getattr (remotes h) "origin" = inl e ->
    SyncCase url p w
      (mkRun (Ok tt) w1
         [Called (C_exists p); Called (C_Repo p); Log INFO (Pulling url);
          Log ERROR (update_failure url e)])
| Sync_pull_failed w0 w1 w2 h r e :
    path_exists p w = (inr true, w0) ->
    Repo_open p w0 = (inr h, w1) ->
    remotes_getattr (remotes h) "origin" = inr r ->
    pull h r w1 = (inl e, w2) ->
    SyncCase url p w
      (mkRun (Ok tt) w2
         [Called (C_exists p); Called (C_Repo p); Log INFO (Pulling url);
          Called (C_pull h r); Log ERROR (update_failure url e)])
| Sync_pulled w0 w1 w2 h r :
    path_exists p w = (inr true, w0) ->
    Repo_open p w0 = (inr h, w1) ->
    remotes_getattr (remotes h) "origin" = inr r ->
    pull h r w1 = (inr tt, w2) ->
    SyncCase url p w
      (mkRun (Ok tt) w2
         [Called (C_exists p); Called (C_Repo p); Log INFO (Pulling url);
          Called (C_pull h r); Log INFO (Pulled_ok url)]).

End SyncCases.

(** ** What git promises *)

Section GitContract.
Context {W : Type} {E : Externals W}.

(** [p] exists and opens as a repository whose remote [origin] points at [url]. *)
Definition valid_clone (url : string) (p : Path) (w : W) : Prop :=
  path_exists p w = (inr true, w) /\
  exists h r, Repo_open p w = (inr h, w) /\
              remotes_getattr (remotes h) "origin" = inr r /\
              remote_url r = url.

(** A clone that succeeds leaves a valid clone of the URL at the path. *)
Definition clone_contract : Prop :=
  forall url p w w1, clone_from url p w = (inr tt, w1) -> valid_clone url p w1.

End GitContract.

(** The first version-control call of a trace says which branch was taken. *)
Inductive Action : Type := Clone_action | Update_action.

Fixpoint chosen_action (cs : list Call) : option Action :=
  match cs with
  | [] => None
  | C_clone_from _ _ :: _ => Some Clone_action
  | C_Repo _ :: _ => Some Update_action
  | C_pull _ _ :: _ => Some Update_action
  | _ :: cs' => chosen_action cs'
  end.

(** The script only ever calls [sys.exit(1)]: a run fails when it raises or
    exits with that status. *)
Definition fails {A} (r : Res A) : Prop :=
  match r with
  | Ok _ => False
  | Raise _ => True
  | Exit c => c = 1%Z
  end.

Definition never_exits {W A} (m : M W A) : Prop :=
  forall w c, result (m w) <> Exit c.

(** The four log records that precede a [sys.exit(1)]. *)
Definition is_fatal_startup_msg (m : Msg) : bool :=
  match m with
  | Config_not_found _ | Yaml_parse_error _ | Token_missing | No_organizations => true
  | _ => false
  end.

(** When the computation exits, it is with status 1 and right after one of
    the fatal log records. *)
Definition exits_fatally {W A} (m : M W A) : Prop :=
  forall w c, result (m w) = Exit c ->
    c = 1%Z /\
    exists t0 msg, trace (m w) = t0 ++ [Log ERROR msg] /\ is_fatal_startup_msg msg = true.

(** The last log record of the script is emitted only by a computation that
    returns. *)
Definition completes_when_logged {W A} (m : M W A) : Prop :=
  forall w, In (Log INFO Completed) (trace (m w)) -> exists a, result (m w) = Ok a.

Definition not_completed (ev : Event) : Prop := ev <> Log INFO Completed.

(** Events of the start of a run: no call that belongs to the processing of
    repositories. *)
Definition startup_event (ev : Event) : Prop :=
  match ev with
  | Called c => is_repo_processing c = false
  | Log _ _ => True
  end.

(** A computation that, unless it reports an organisation as accessed, fails
    without leaving the start-up phase. *)
Definition halts_without_org {W A} (m : M W A) : Prop :=
  forall w, accessed_orgs (trace (m w)) = [] ->
            fails (result (m w)) /\ Forall startup_event (trace (m w)).

(** What a run of the loop amounts to. *)
Definition loop_report {W} (names : list Value) (orgs : list Org) (r : Run W (list Org)) : Prop :=
  match result r with
  | Ok orgs' =>
      calls_of (trace r) = map C_get_organization names /\
      exists new, orgs' = orgs ++ new /\ length new = length (accessed_orgs (trace r))
  | Raise e => is_GithubException e = false
  | Exit _ => False
  end.

(** [config[section][key]], when both lookups succeed. *)
Definition config_entry (config : Value) (section key : string) : option Value :=
  match getitem config section with
  | inr v => match getitem v key with
             | inr x => Some x
             | inl _ => None
             end
  | inl _ => None
  end.

(** One of the entries [main] reads, the token apart, is not there. *)
Definition config_incomplete (config : Value) : Prop :=
  config_entry config "backup" "log_file" = None \/
  config_entry config "github" "organizations" = None \/
  config_entry config "backup" "destination_path" = None.

(** The token is not there or is empty. *)
Definition credential_missing (config : Value) : Prop :=
  match config_entry config "github" "token" with
  | Some token => truthy token = false
  | None => True
  end.

(** The three start-up conditions the specification calls fatal: the
    configuration is missing or unparsable (or lacks an entry), the
    credential is missing, no organisation is accessed. *)
Definition fatal_startup_condition {W} {E : Externals W} (w : W) : Prop :=
  match read_config CONFIG_FILE w with
  | (inl _, _) => True
  | (inr config, _) => config_incomplete config \/ credential_missing config
  end \/
  accessed_orgs (trace (main w)) = [].

(** The paths a list of calls tests for existence, and the ones it makes as
    directories, in order. *)
Definition exists_paths (cs : list Call) : list Path :=
  flat_map (fun c => match c with C_exists p => [p] | _ => [] end) cs.

Definition mkdir_paths (cs : list Call) : list Path :=
  flat_map (fun c => match c with C_mkdir p => [p] | _ => [] end) cs.

(** The organisations among [names] that [answer] resolves, in order. *)
Definition resolved (answer : Value -> Exception + Org) (names : list Value) : list Org :=
  flat_map (fun n => match answer n with inr o => [o] | inl _ => [] end) names.

(** The log record of the two handlers of [load_config]. *)
Definition config_failure (config_path : string) (e : Exception) : Msg :=
  if is_FileNotFoundError e then Config_not_found config_path else Yaml_parse_error e.

(** A computation that, when it returns, has the completion record as its
    last event and nowhere else. *)
Definition ends_with_completion {W A} (m : M W A) : Prop :=
  forall w b, result (m w) = Ok b ->
    exists t, trace (m w) = t ++ [Log INFO Completed] /\ Forall not_completed t.

(** The GitHub client is built with a token Python takes as true and with
    pages of 100 items. *)
Definition client_call_ok (ev : Event) : Prop :=
  forall token page, ev = Called (C_Github token page) ->
                     page = 100%Z /\ truthy token = true.

(** What a round of the outer loop may do, given the organisation and the
    listing it got: list that organisation, mkdir its directory, and test,
    open or clone into the path of a repository of the listing, the clone
    from that repository's clone URL. *)
Definition round_event {W} {E : Externals W}
           (backup_dir : Path) (org : Org) (repos : list Repository) (ev : Event) : Prop :=
  match ev with
  | Called (C_get_repos o) => o = org
  | Called (C_mkdir p) => p = joinpath backup_dir (login org)
  | Called (C_exists p) =>
      exists repo, In repo repos /\
                   p = joinpath (joinpath backup_dir (login org)) (name repo)
  | Called (C_Repo p) =>
      exists repo, In repo repos /\
                   p = joinpath (joinpath backup_dir (login org)) (name repo)
  | Called (C_clone_from url p) =>
      exists repo, In repo repos /\
                   p = joinpath (joinpath backup_dir (login org)) (name repo) /\
                   url = clone_url repo
  | _ => True
  end.

(** ** Reasoning about runs *)

Section Runs.
Context {W : Type}.

Lemma bind_ok {A B} (m : M W A) (f : A -> M W B) w a w1 t1 :
  m w = mkRun (Ok a) w1 t1 -> bind m f w = prefixed t1 (f a w1).
Proof.
  intros H. unfold bind, prefixed. rewrite H. destruct (f a w1); reflexivity.
Qed.

Lemma bind_raise {A B} (m : M W A) (f : A -> M W B) w e w1 t1 :
  m w = mkRun (Raise e) w1 t1 -> bind m f w = mkRun (Raise e) w1 t1.
Proof. intros H. unfold bind. rewrite H. reflexivity. Qed.

Lemma bind_exit {A B} (m : M W A) (f : A -> M W B) w c w1 t1 :
  m w = mkRun (Exit c) w1 t1 -> bind m f w = mkRun (Exit c) w1 t1.
Proof. intros H. unfold bind. rewrite H. reflexivity. Qed.

(** The three ways a sequence can go. *)
Lemma bind_cases {A B} (m : M W A) (f : A -> M W B) w :
  (exists a w1 t1, m w = mkRun (Ok a) w1 t1 /\ bind m f w = prefixed t1 (f a w1)) \/
  (exists e w1 t1, m w = mkRun (Raise e) w1 t1 /\ bind m f w = mkRun (Raise e) w1 t1) \/
  (exists c w1 t1, m w = mkRun (Exit c) w1 t1 /\ bind m f w = mkRun (Exit c) w1 t1).
Proof.
  destruct (m w) as [[a|e|c] w1 t1] eqn:H.
  - left. exists a, w1, t1. split; [reflexivity | now apply bind_ok].
  - right; left. exists e, w1, t1. split; [reflexivity | now apply bind_raise].
  - right; right. exists c, w1, t1. split; [reflexivity | now apply bind_exit].
Qed.

(** A loop whose first round returns goes on with the next item. *)
Lemma for_each_continues {A} (body : A -> M W unit) x xs w w1 t1 :
  body x w = mkRun (Ok tt) w1 t1 ->
  for_each body (x :: xs) w = prefixed t1 (for_each body xs w1).
Proof.
  intros H. simpl.
  rewrite (bind_ok _ (fun _ => for_each body xs) _ _ _ _ H). reflexivity.
Qed.

Lemma emits_ret {A} P (a : A) : emits P (ret (W:=W) a).
Proof. intros w. constructor. Qed.

Lemma emits_lift {A} P (r : Exception + A) : emits P (lift (W:=W) r).
Proof. intros w. unfold lift. destruct r; constructor. Qed.

Lemma emits_sys_exit {A} P c : emits P (sys_exit (W:=W) (A:=A) c).
Proof. intros w. constructor. Qed.

Lemma emits_log (P : Event -> Prop) lvl m : P (Log lvl m) -> emits P (log (W:=W) lvl m).
Proof. intros H w. simpl. auto. Qed.

Lemma emits_call {A} (P : Event -> Prop) c (f : W -> (Exception + A) * W) :
  P (Called c) -> emits P (call c f).
Proof.
  intros H w. unfold call. destruct (f w) as [[e|a] w1]; simpl; auto.
Qed.

Lemma emits_bind {A B} P (m : M W A) (f : A -> M W B) :
  emits P m -> (forall a, emits P (f a)) -> emits P (bind m f).
Proof.
  intros Hm Hf w. specialize (Hm w). unfold bind.
  destruct (m w) as [[a|e|c] w1 t1]; simpl in *; auto.
  specialize (Hf a w1). destruct (f a w1) as [r w2 t2]; simpl in *.
  apply Forall_app; auto.
Qed.

Lemma emits_try_except {A} P (body : M W A) handler :
  emits P body -> (forall e h, handler e = Some h -> emits P h) ->
  emits P (try_except body handler).
Proof.
  intros Hb Hh w. specialize (Hb w). unfold try_except.
  destruct (body w) as [[a|e|c] w1 t1]; simpl in *; auto.
  destruct (handler e) as [h|] eqn:He; simpl; auto.
  specialize (Hh e h He w1). destruct (h w1) as [r w2 t2]; simpl in *.
  apply Forall_app; auto.
Qed.

Lemma emits_for_each {A} P (body : A -> M W unit) l :
  (forall x, emits P (body x)) -> emits P (for_each body l).
Proof.
  intros Hb. induction l as [|x xs IH]; simpl.
  - apply emits_ret.
  - apply emits_bind; auto.
Qed.

End Runs.

Lemma outcomes_app t1 t2 : outcomes (t1 ++ t2) = outcomes t1 ++ outcomes t2.
Proof.
  induction t1 as [|[lvl m|c] t1 IH]; simpl; auto.
  destruct (msg_outcome m); simpl; now rewrite IH.
Qed.

Lemma calls_of_app t1 t2 : calls_of (t1 ++ t2) = calls_of t1 ++ calls_of t2.
Proof.
  induction t1 as [|[lvl m|c] t1 IH]; simpl; auto. now rewrite IH.
Qed.

Lemma accessed_orgs_app t1 t2 :
  accessed_orgs (t1 ++ t2) = accessed_orgs t1 ++ accessed_orgs t2.
Proof.
  induction t1 as [|[lvl m|c] t1 IH]; simpl; auto.
  destruct lvl; auto. destruct m; auto. simpl. now rewrite IH.
Qed.


(** ** The sync operation, path by path *)

Section Sync.
Context {W : Type} {E : Externals W}.

Ltac run_sync :=
  unfold clone_or_pull_repo, bind, try_except, call, log, lift; simpl.

Lemma sync_exists_raises url p w e w0 :
  path_exists p w = (inl e, w0) ->
  clone_or_pull_repo url p w = mkRun (Raise e) w0 [Called (C_exists p)].
Proof. intros H. run_sync. rewrite H. reflexivity. Qed.

Lemma sync_cloned url p w w0 w1 :
  path_exists p w = (inr false, w0) ->
  clone_from url p w0 = (inr tt, w1) ->
  clone_or_pull_repo url p w =
  mkRun (Ok tt) w1
        [Called (C_exists p); Log INFO (Cloning url p);
         Called (C_clone_from url p); Log INFO (Cloned_ok url)].
Proof. intros H H0. run_sync. rewrite H. simpl. rewrite H0. reflexivity. Qed.

Lemma sync_clone_failed url p w w0 w1 e :
  path_exists p w = (inr false, w0) ->
  clone_from url p w0 = (inl e, w1) ->
  is_GitCommandError e = true ->
  clone_or_pull_repo url p w =
  mkRun (Ok tt) w1
        [Called (C_exists p); Log INFO (Cloning url p);
         Called (C_clone_from url p); Log ERROR (Clone_failed url e)].
Proof.
  intros H H0 H1. run_sync. rewrite H. simpl. rewrite H0. simpl.
  rewrite H1. reflexivity.
Qed.

Lemma sync_clone_escapes url p w w0 w1 e :
  path_exists p w = (inr false, w0) ->
  clone_from url p w0 = (inl e, w1) ->
  is_GitCommandError e = false ->
  clone_or_pull_repo url p w =
  mkRun (Raise e) w1
        [Called (C_exists p); Log INFO (Cloning url p); Called (C_clone_from url p)].
Proof.
  intros H H0 H1. run_sync. rewrite H. simpl. rewrite H0. simpl.
  rewrite H1. reflexivity.
Qed.

Lemma sync_open_failed url p w w0 w1 e :
  path_exists p w = (inr true, w0) ->
  Repo_open p w0 = (inl e, w1) ->
  clone_or_pull_repo url p w =
  mkRun (Ok tt) w1
        [Called (C_exists p); Called (C_Repo p); Log ERROR (update_failure url e)].
Proof.
  intros H H0. run_sync. rewrite H. simpl. rewrite H0. simpl.
  unfold update_failure. destruct (is_GitCommandError e); reflexivity.
Qed.

Lemma sync_no_origin url p w w0 w1 h e :
  path_exists p w = (inr true, w0) ->
  Repo_open p w0 = (inr h, w1) ->
  remotes_getattr (remotes h) "origin" = inl e ->
  clone_or_pull_repo url p w =
  mkRun (Ok tt) w1
        [Called (C_exists p); Called (C_Repo p); Log INFO (Pulling url);
         Log ERROR (update_failure url e)].
Proof.
  intros H H0 H1. run_sync. rewrite H. simpl. rewrite H0. simpl. rewrite H1.
  unfold update_failure. destruct (is_GitCommandError e); reflexivity.
Qed.

Lemma sync_pull_failed url p w w0 w1 w2 h r e :
  path_exists p w = (inr true, w0) ->
  Repo_open p w0 = (inr h, w1) ->
  remotes_getattr (remotes h) "origin" = inr r ->
  pull h r w1 = (inl e, w2) ->
  clone_or_pull_repo url p w =
  mkRun (Ok tt) w2
        [Called (C_exists p); Called (C_Repo p); Log INFO (Pulling url);
         Called (C_pull h r); Log ERROR (update_failure url e)].
Proof.
  intros H H0 H1 H2. run_sync. rewrite H. simpl. rewrite H0. simpl. rewrite H1.
  rewrite H2. unfold update_failure. destruct (is_GitCommandError e); reflexivity.
Qed.

Lemma sync_pulled url p w w0 w1 w2 h r :
  path_exists p w = (inr true, w0) ->
  Repo_open p w0 = (inr h, w1) ->
  remotes_getattr (remotes h) "origin" = inr r ->
  pull h r w1 = (inr tt, w2) ->
  clone_or_pull_repo url p w =
  mkRun (Ok tt) w2
        [Called (C_exists p); Called (C_Repo p); Log INFO (Pulling url);
         Called (C_pull h r); Log INFO (Pulled_ok url)].
Proof.
  intros H H0 H1 H2. run_sync. rewrite H. simpl. rewrite H0. simpl. rewrite H1.
  rewrite H2. reflexivity.
Qed.

Lemma sync_cases url p w : SyncCase url p w (clone_or_pull_repo url p w).
Proof.
  destruct (path_exists p w) as [[e|[|]] w0] eqn:Hx.
  - rewrite (sync_exists_raises _ _ _ _ _ Hx). now constructor.
  - destruct (Repo_open p w0) as [[e|h] w1] eqn:Ho.
    + rewrite (sync_open_failed url _ _ _ _ _ Hx Ho). eapply Sync_open_failed; eauto.
    + destruct (remotes_getattr (remotes h) "origin") as [e|r] eqn:Hr.
      * rewrite (sync_no_origin url _ _ _ _ _ _ Hx Ho Hr).
        eapply Sync_no_origin; eauto.
      * destruct (pull h r w1) as [[e|[]] w2] eqn:Hp.
        -- rewrite (sync_pull_failed url _ _ _ _ _ _ _ _ Hx Ho Hr Hp).
           eapply Sync_pull_failed; eauto.
        -- rewrite (sync_pulled url _ _ _ _ _ _ _ Hx Ho Hr Hp).
           eapply Sync_pulled; eauto.
  - destruct (clone_from url p w0) as [[e|[]] w1] eqn:Hc.
    + destruct (is_GitCommandError e) eqn:Hg.
      * rewrite (sync_clone_failed _ _ _ _ _ _ Hx Hc Hg).
        eapply Sync_clone_failed; eauto.
      * rewrite (sync_clone_escapes _ _ _ _ _ _ Hx Hc Hg).
        eapply Sync_clone_escapes; eauto.
    + rewrite (sync_cloned _ _ _ _ _ Hx Hc). eapply Sync_cloned; eauto.
Qed.

End Sync.

Module Toy_facts.
Import Toy.

Lemma lookup_update {A} k (v : A) l : lookup k (update k v l) = Some v.
Proof.
  induction l as [|[k' v'] l IH]; simpl.
  - now rewrite String.eqb_refl.
  - destruct (String.eqb k k') eqn:Hk; simpl.
    + now rewrite String.eqb_refl.
    + now rewrite Hk.
Qed.

Lemma toy_clone_contract : clone_contract (E:=toy).
Proof.
  intros url p w w1. simpl. unfold t_clone_from.
  destruct (negb (git_installed w)); [discriminate|].
  destruct (lookup url (upstream w)) as [tip|]; [|discriminate].
  intros [= <-]. unfold valid_clone. simpl.
  unfold t_exists, t_Repo_open. simpl. rewrite lookup_update. split; [reflexivity|].
  exists (mkRepo p [mkRemote "origin" url]), (mkRemote "origin" url).
  repeat split.
Qed.

End Toy_facts.

(** ** The claims about the sync operation *)

Section SyncClaims.
Context {W : Type} {E : Externals W}.

(** C1 (the code departs from the claim): in the clone branch only
    [GitCommandError] is handled, so any other exception raised by the clone
    leaves [clone_or_pull_repo] as an exception, with no Failed outcome
    logged; the update branch does have the catch-all handler. *)
Theorem clone_branch_error_escapes url p (w w0 w1 : W) e :
  path_exists p w = (inr false, w0) ->
  clone_from url p w0 = (inl e, w1) ->
  is_GitCommandError e = false ->
  result (clone_or_pull_repo url p w) = Raise e /\
  outcomes (trace (clone_or_pull_repo url p w)) = [].
Proof.
  intros Hx Hc Hg. rewrite (sync_clone_escapes _ _ _ _ _ _ Hx Hc Hg).
  split; reflexivity.
Qed.


(** C8: when the path is absent and the clone succeeds, the sync reports
    Cloned and leaves what the clone left, a valid clone of the URL at the
    path; and a Cloned outcome is only ever reported after exactly one
    successful clone of the URL into the path. *)
Theorem cloned_is_valid_clone (Hgit : clone_contract) url p (w : W) :
  (forall w0 w1,
      path_exists p w = (inr false, w0) ->
      clone_from url p w0 = (inr tt, w1) ->
      result (clone_or_pull_repo url p w) = Ok tt /\
      outcomes (trace (clone_or_pull_repo url p w)) = [(url, Cloned)] /\
      valid_clone url p (world (clone_or_pull_repo url p w))) /\
  (outcomes (trace (clone_or_pull_repo url p w)) = [(url, Cloned)] ->
   calls_of (trace (clone_or_pull_repo url p w)) = [C_exists p; C_clone_from url p] /\
   valid_clone url p (world (clone_or_pull_repo url p w))).
Proof.
  split.
  - intros w0 w1 Hx Hc. rewrite (sync_cloned _ _ _ _ _ Hx Hc). simpl.
    repeat split; try reflexivity; eapply Hgit; eauto.
  - destruct (sync_cases url p w) as
      [e' w0' H|w0' w1 H H1|w0' w1 e' H|w0' w1 e' H|w0' w1 e' H
       |w0' w1 h e' H|w0' w1 w2 h r e' H|w0' w1 w2 h r H]; simpl;
      try discriminate;
      try (unfold update_failure; destruct (is_GitCommandError e'); discriminate).
    intros _. split; [reflexivity|]. eapply Hgit; eauto.
Qed.

(** C7 (amended): a sync that clones, followed at once by a second sync
    of the same URL and path, takes the update branch the second time: it
    makes no clone, opens the clone, pulls its remote origin (which points at
    the URL) and returns; the outcome is Updated when that pull succeeds and
    Failed when it fails, and the world is what the pull left. *)
Theorem clone_then_sync_takes_update_branch
        (Hgit : clone_contract) url p (w w0 w1 : W) :
  path_exists p w = (inr false, w0) ->
  clone_from url p w0 = (inr tt, w1) ->
  let r1 := clone_or_pull_repo url p w in
  let r2 := clone_or_pull_repo url p (world r1) in
  outcomes (trace r1) = [(url, Cloned)] /\
  result r2 = Ok tt /\
  chosen_action (calls_of (trace r2)) = Some Update_action /\
  existsb is_clone_call (calls_of (trace r2)) = false /\
  exists h r,
    remotes_getattr (remotes h) "origin" = inr r /\
    remote_url r = url /\
    calls_of (trace r2) = [C_exists p; C_Repo p; C_pull h r] /\
    (forall w2, pull h r w1 = (inr tt, w2) ->
                outcomes (trace r2) = [(url, Updated)] /\ world r2 = w2) /\
    (forall e w2, pull h r w1 = (inl e, w2) ->
                  outcomes (trace r2) = [(url, Failed e)] /\ world r2 = w2).
Proof.
  intros Hx Hc. cbv zeta. rewrite (sync_cloned _ _ _ _ _ Hx Hc). simpl.
  split; [reflexivity|].
  destruct (Hgit _ _ _ _ Hc) as [Hex (h & r & Ho & Hr & Hu)].
  destruct (pull h r w1) as [[e|[]] w2] eqn:Hp.
  - rewrite (sync_pull_failed url _ _ _ _ _ _ _ _ Hex Ho Hr Hp). simpl.
    do 3 (split; [reflexivity|]). exists h, r.
    split; [assumption|]. split; [assumption|]. split; [reflexivity|]. split.
    + intros w3 H. rewrite Hp in H. discriminate H.
    + intros e' w3 H. rewrite Hp in H. injection H as <- <-. unfold update_failure.
      destruct (is_GitCommandError e); split; reflexivity.
  - rewrite (sync_pulled url _ _ _ _ _ _ _ Hex Ho Hr Hp). simpl.
    do 3 (split; [reflexivity|]). exists h, r.
    split; [assumption|]. split; [assumption|]. split; [reflexivity|]. split.
    + intros w3 H. rewrite Hp in H. injection H as <-. split; reflexivity.
    + intros e' w3 H. rewrite Hp in H. discriminate H.
Qed.


End SyncClaims.

(** ** Reasoning about whole runs *)

Section WholeRuns.
Context {W : Type}.

Lemma prefixed_prefixed {A} t1 t2 (r : Run W A) :
  prefixed t1 (prefixed t2 r) = prefixed (t1 ++ t2) r.
Proof. unfold prefixed. simpl. now rewrite app_assoc. Qed.

Lemma prefixed_nil {A} (r : Run W A) : prefixed [] r = r.
Proof. destruct r; reflexivity. Qed.

Lemma for_each_app_ok {A} (body : A -> M W unit) l1 l2 :
  forall w w1 t1,
    for_each body l1 w = mkRun (Ok tt) w1 t1 ->
    for_each body (l1 ++ l2) w = prefixed t1 (for_each body l2 w1).
Proof.
  induction l1 as [|x l1 IH]; intros w w1 t1 H; simpl in *.
  - unfold ret in H. inversion H; subst. now rewrite prefixed_nil.
  - destruct (bind_cases (body x) (fun _ => for_each body l1) w)
      as [(a & wa & ta & Hb & Heq)|[(e & wa & ta & Hb & Heq)|(c & wa & ta & Hb & Heq)]];
      rewrite Heq in H; try discriminate.
    destruct (for_each body l1 wa) as [r' w' t'] eqn:Hl.
    unfold prefixed in H. simpl in H. inversion H; subst.
    rewrite (bind_ok _ (fun _ => for_each body (l1 ++ l2)) _ _ _ _ Hb).
    rewrite (IH _ _ _ Hl). now rewrite prefixed_prefixed.
Qed.

Lemma never_exits_ret {A} (a : A) : never_exits (ret (W:=W) a).
Proof. intros w c. discriminate. Qed.

Lemma never_exits_lift {A} (r : Exception + A) : never_exits (lift (W:=W) r).
Proof. intros w c. unfold lift. destruct r; discriminate. Qed.

Lemma never_exits_log lvl m : never_exits (log (W:=W) lvl m).
Proof. intros w c. discriminate. Qed.

Lemma never_exits_call {A} c (f : W -> (Exception + A) * W) : never_exits (call c f).
Proof. intros w k. unfold call. destruct (f w) as [[e|a] w1]; discriminate. Qed.

Lemma never_exits_bind {A B} (m : M W A) (f : A -> M W B) :
  never_exits m -> (forall a, never_exits (f a)) -> never_exits (bind m f).
Proof.
  intros Hm Hf w c. specialize (Hm w). unfold bind.
  destruct (m w) as [[a|e|k] w1 t1]; simpl in *; try discriminate.
  - specialize (Hf a w1 c). destruct (f a w1); simpl in *. assumption.
  - exfalso. now apply (Hm k).
Qed.

Lemma never_exits_try_except {A} (body : M W A) handler :
  never_exits body -> (forall e h, handler e = Some h -> never_exits h) ->
  never_exits (try_except body handler).
Proof.
  intros Hb Hh w c. specialize (Hb w). unfold try_except.
  destruct (body w) as [[a|e|k] w1 t1]; simpl in *; try discriminate.
  - destruct (handler e) as [h|] eqn:He; simpl; try discriminate.
    specialize (Hh e h He w1 c). destruct (h w1); simpl in *. assumption.
  - exfalso. now apply (Hb k).
Qed.

Lemma never_exits_for_each {A} (body : A -> M W unit) l :
  (forall x, never_exits (body x)) -> never_exits (for_each body l).
Proof.
  intros Hb. induction l as [|x xs IH]; simpl.
  - apply never_exits_ret.
  - apply never_exits_bind; auto.
Qed.

Lemma never_exits_fatally {A} (m : M W A) : never_exits m -> exits_fatally m.
Proof. intros H w c Hc. exfalso. now apply (H w c). Qed.

Lemma exits_fatally_bind {A B} (m : M W A) (f : A -> M W B) :
  exits_fatally m -> (forall a, exits_fatally (f a)) -> exits_fatally (bind m f).
Proof.
  intros Hm Hf w c.
  destruct (bind_cases m f w)
    as [(a & w1 & t1 & Hb & ->)|[(e & w1 & t1 & Hb & ->)|(k & w1 & t1 & Hb & ->)]];
    simpl; intros Hc; try discriminate.
  - destruct (Hf a w1 c Hc) as [-> (t0 & msg & Ht & Hfat)].
    split; [reflexivity|]. exists (t1 ++ t0), msg. rewrite Ht.
    now rewrite app_assoc.
  - inversion Hc; subst. specialize (Hm w c). rewrite Hb in Hm. simpl in Hm. auto.
Qed.

Lemma completes_when_logged_bind {A B} (m : M W A) (f : A -> M W B) :
  emits not_completed m -> (forall a, completes_when_logged (f a)) ->
  completes_when_logged (bind m f).
Proof.
  intros Hm Hf w. specialize (Hm w).
  destruct (bind_cases m f w)
    as [(a & w1 & t1 & Hb & ->)|[(e & w1 & t1 & Hb & ->)|(k & w1 & t1 & Hb & ->)]];
    rewrite Hb in Hm; simpl in *; intros Hin.
  - apply in_app_or in Hin. destruct Hin as [Hin|Hin].
    + rewrite Forall_forall in Hm. exfalso. now apply (Hm _ Hin).
    + now apply Hf.
  - rewrite Forall_forall in Hm. exfalso. now apply (Hm _ Hin).
  - rewrite Forall_forall in Hm. exfalso. now apply (Hm _ Hin).
Qed.

Lemma halts_without_org_bind {A B} (m : M W A) (f : A -> M W B) :
  emits startup_event m ->
  (forall w c, result (m w) = Exit c -> c = 1%Z) ->
  (forall a, halts_without_org (f a)) ->
  halts_without_org (bind m f).
Proof.
  intros Hm Hx Hf w. specialize (Hm w). specialize (Hx w).
  destruct (bind_cases m f w)
    as [(a & w1 & t1 & Hb & ->)|[(e & w1 & t1 & Hb & ->)|(k & w1 & t1 & Hb & ->)]];
    rewrite Hb in Hm, Hx; simpl in *; intros Hacc.
  - rewrite accessed_orgs_app in Hacc. apply app_eq_nil in Hacc.
    destruct Hacc as [_ Hacc]. destruct (Hf a w1 Hacc) as [Hfail Hall].
    split; [assumption|]. apply Forall_app; auto.
  - auto.
  - split; [|assumption]. now apply Hx.
Qed.

Lemma logs_bind {A B} (ev : Event) (m : M W A) (f : A -> M W B) :
  (forall a w b, result (f a w) = Ok b -> In ev (trace (f a w))) ->
  forall w b, result (bind m f w) = Ok b -> In ev (trace (bind m f w)).
Proof.
  intros Hf w b.
  destruct (bind_cases m f w)
    as [(a & w1 & t1 & Hb & ->)|[(e & w1 & t1 & Hb & ->)|(k & w1 & t1 & Hb & ->)]];
    simpl; intros Hr; try discriminate.
  apply in_or_app. right. now apply (Hf a w1 b).
Qed.

Lemma fails_exit_status {A} (r : Res A) : fails r -> exit_status r <> 0%Z.
Proof. destruct r; simpl; intros H; [contradiction|discriminate|subst; discriminate]. Qed.

End WholeRuns.

Lemma startup_events_calls t :
  Forall startup_event t ->
  Forall (fun c => is_repo_processing c = false) (calls_of t).
Proof.
  induction 1 as [|[lvl m|c] t Hev Hall IH]; simpl; auto.
Qed.

Lemma startup_writes_are_logging t :
  Forall startup_event t ->
  Forall (fun c => is_fs_write c = true -> exists log_file, c = C_setup_logging log_file)
         (calls_of t).
Proof.
  induction 1 as [|[lvl m|c] t Hev Hall IH]; simpl; auto.
  constructor; [|assumption]. simpl in Hev.
  destruct c; simpl in *; intros Hw; try discriminate. now eexists.
Qed.

Lemma startup_written_paths t :
  Forall startup_event t ->
  forall log_to p,
    In p (written_paths log_to t) ->
    log_to = Some p \/ In (C_setup_logging (VStr p)) (calls_of t).
Proof.
  induction 1 as [|[lvl m|c] t Hev Hall IH]; intros log_to p; simpl.
  - contradiction.
  - destruct log_to as [f|].
    + intros [->|Hin]; [now left|]. apply (IH _ _ Hin).
    + apply IH.
  - simpl in Hev. destruct c; simpl in *; try discriminate;
      try (intros Hin; destruct (IH _ _ Hin) as [->|H']; [now left|now right; right]).
    destruct log_file; simpl;
      try (intros Hin; destruct (IH _ _ Hin) as [->|H']; [now left|now right; right]).
    intros [->|Hin]; [right; now left|].
    destruct (IH _ _ Hin) as [[= ->]|H']; right; [now left|now right].
Qed.

(** Steps through a computation built from the combinators, for the three
    properties of traces and results that compose. *)
Ltac handler_cases :=
  repeat match goal with
         | H : Some _ = Some _ |- _ => injection H as <-
         | H : None = Some _ |- _ => discriminate H
         | H : (if ?b then _ else _) = Some _ |- _ => destruct b
         end.

Ltac emits_step :=
  match goal with
  | |- emits _ (bind _ _) => apply emits_bind; [|intros ?]
  | |- emits _ (try_except _ _) => apply emits_try_except; [|intros ? ? ?; handler_cases]
  | |- emits _ (call _ _) => apply emits_call
  | |- emits _ (log _ _) => apply emits_log
  | |- emits _ (lift _) => apply emits_lift
  | |- emits _ (ret _) => apply emits_ret
  | |- emits _ (sys_exit _) => apply emits_sys_exit
  | |- emits _ (for_each _ _) => apply emits_for_each; intros ?
  | |- emits _ (if ?b then _ else _) => destruct b
  | |- emits _ (match ?l with [] => _ | _ :: _ => _ end) => destruct l
  end.

Ltac never_exits_step :=
  match goal with
  | |- never_exits (bind _ _) => apply never_exits_bind; [|intros ?]
  | |- never_exits (try_except _ _) =>
      apply never_exits_try_except; [|intros ? ? ?; handler_cases]
  | |- never_exits (call _ _) => apply never_exits_call
  | |- never_exits (log _ _) => apply never_exits_log
  | |- never_exits (lift _) => apply never_exits_lift
  | |- never_exits (ret _) => apply never_exits_ret
  | |- never_exits (for_each _ _) => apply never_exits_for_each; intros ?
  | |- never_exits (if ?b then _ else _) => destruct b
  end.

(** ** The functions of the script, one by one *)

Section ScriptFacts.
Context {W : Type} {E : Externals W}.

(** The three ways one round of the loop of [get_organizations] can go. *)
Lemma get_organizations_step_ok client orgs name (w w1 : W) org :
  get_organization client name w = (inr org, w1) ->
  get_organizations_step client orgs name w =
  mkRun (Ok (orgs ++ [org])) w1
        [Called (C_get_organization name); Log INFO (Accessed_organization name)].
Proof.
  intros H. unfold get_organizations_step, try_except, bind, call, log, ret.
  rewrite H. reflexivity.
Qed.

Lemma get_organizations_step_skips client orgs name (w w1 : W) e :
  get_organization client name w = (inl e, w1) ->
  is_GithubException e = true ->
  get_organizations_step client orgs name w =
  mkRun (Ok orgs) w1
        [Called (C_get_organization name); Log ERROR (Access_failed name e)].
Proof.
  intros H Hg. unfold get_organizations_step, try_except, bind, call, log, ret.
  rewrite H. simpl. rewrite Hg. reflexivity.
Qed.

Lemma get_organizations_step_escapes client orgs name (w w1 : W) e :
  get_organization client name w = (inl e, w1) ->
  is_GithubException e = false ->
  get_organizations_step client orgs name w =
  mkRun (Raise e) w1 [Called (C_get_organization name)].
Proof.
  intros H Hg. unfold get_organizations_step, try_except, bind, call, log, ret.
  rewrite H. simpl. rewrite Hg. reflexivity.
Qed.

Lemma get_organizations_loop_report client names :
  forall orgs (w : W), loop_report names orgs (get_organizations_loop client names orgs w).
Proof.
  induction names as [|name rest IH]; intros orgs w; simpl.
  - unfold loop_report. simpl. split; [reflexivity|]. exists []. now rewrite app_nil_r.
  - destruct (get_organization client name w) as [[e|org] w1] eqn:Hg.
    + destruct (is_GithubException e) eqn:He.
      * rewrite (bind_ok _ _ _ _ _ _ (get_organizations_step_skips _ orgs _ _ _ _ Hg He)).
        specialize (IH orgs w1). unfold loop_report in *. simpl.
        destruct (result (get_organizations_loop client rest orgs w1)); auto.
        destruct IH as [Hc Hn]. split; [now rewrite Hc|assumption].
      * rewrite (bind_raise _ _ _ _ _ _ (get_organizations_step_escapes _ orgs _ _ _ _ Hg He)).
        unfold loop_report. simpl. assumption.
    + rewrite (bind_ok _ _ _ _ _ _ (get_organizations_step_ok _ orgs _ _ _ _ Hg)).
      specialize (IH (orgs ++ [org]) w1). unfold loop_report in *. simpl.
      destruct (result (get_organizations_loop client rest (orgs ++ [org]) w1)); auto.
      destruct IH as [Hc (new & Hn & Hl)]. split; [now rewrite Hc|].
      exists (org :: new). rewrite Hn, <- app_assoc. simpl. split; [reflexivity|].
      now rewrite Hl.
Qed.

Lemma get_organizations_report client names (w : W) :
  loop_report names [] (get_organizations client (VList names) w).
Proof.
  unfold get_organizations. simpl.
  change (lift (inr names)) with (ret (W:=W) names).
  pose proof (get_organizations_loop_report client names [] w) as H.
  unfold bind, ret. destruct (get_organizations_loop client names [] w). exact H.
Qed.

(** When the loop returns, it returns as many organisations as it reported. *)
Lemma get_organizations_accessed client org_names (w : W) orgs :
  result (get_organizations client org_names w) = Ok orgs ->
  length orgs = length (accessed_orgs (trace (get_organizations client org_names w))).
Proof.
  unfold get_organizations.
  destruct (bind_cases (lift (py_iter org_names))
                       (fun names => get_organizations_loop client names []) w)
    as [(a & w1 & t1 & Hb & ->)|[(e & w1 & t1 & Hb & ->)|(k & w1 & t1 & Hb & ->)]];
    simpl; try discriminate.
  unfold lift in Hb. destruct (py_iter org_names); inversion Hb; subst. simpl.
  pose proof (get_organizations_loop_report client a [] w1) as H.
  unfold loop_report in H. intros Hr. rewrite Hr in H.
  destruct H as [_ (new & Hn & Hl)]. simpl in Hn. now subst.
Qed.

Lemma emits_get_organizations_loop (P : Event -> Prop) client names :
  (forall n, P (Called (C_get_organization n))) ->
  (forall n, P (Log INFO (Accessed_organization n))) ->
  (forall n e, P (Log ERROR (Access_failed n e))) ->
  forall orgs, emits (W:=W) P (get_organizations_loop client names orgs).
Proof.
  intros Hc Hi He. induction names as [|name rest IH]; intros orgs; simpl.
  - apply emits_ret.
  - apply emits_bind; [|intros; apply IH].
    unfold get_organizations_step. repeat emits_step; auto.
Qed.

Lemma emits_get_organizations (P : Event -> Prop) client org_names :
  (forall n, P (Called (C_get_organization n))) ->
  (forall n, P (Log INFO (Accessed_organization n))) ->
  (forall n e, P (Log ERROR (Access_failed n e))) ->
  emits (W:=W) P (get_organizations client org_names).
Proof.
  intros Hc Hi He. unfold get_organizations.
  apply emits_bind; [apply emits_lift|]. intros names.
  now apply emits_get_organizations_loop.
Qed.

Lemma never_exits_get_organizations client org_names :
  never_exits (W:=W) (get_organizations client org_names).
Proof.
  unfold get_organizations. apply never_exits_bind; [apply never_exits_lift|].
  intros names. generalize (@nil Org).
  induction names as [|name rest IH]; intros orgs; simpl.
  - apply never_exits_ret.
  - apply never_exits_bind; [|intros; apply IH].
    unfold get_organizations_step. repeat never_exits_step.
Qed.

Lemma never_exits_clone_or_pull_repo url p :
  never_exits (W:=W) (clone_or_pull_repo url p).
Proof. unfold clone_or_pull_repo. repeat never_exits_step. Qed.

Lemma never_exits_main_org backup_dir org : never_exits (W:=W) (main_org backup_dir org).
Proof.
  unfold main_org, get_repositories, main_repo. repeat never_exits_step.
  apply never_exits_clone_or_pull_repo.
Qed.

Lemma not_completed_main_org backup_dir org :
  emits (W:=W) not_completed (main_org backup_dir org).
Proof.
  unfold main_org, get_repositories, main_repo, clone_or_pull_repo.
  repeat emits_step; unfold not_completed; discriminate.
Qed.

Lemma load_config_exits_fatally config_path : exits_fatally (W:=W) (load_config config_path).
Proof.
  intros w c. unfold load_config, try_except, bind, call, log, ret, sys_exit.
  destruct (read_config config_path w) as [[e|config] w1]; simpl; [|discriminate].
  destruct (is_FileNotFoundError e); simpl.
  - intros [= <-]. split; [reflexivity|].
    exists [Called (C_read_config config_path)], (Config_not_found config_path).
    split; reflexivity.
  - destruct (is_YAMLError e); simpl; [|discriminate].
    intros [= <-]. split; [reflexivity|].
    exists [Called (C_read_config config_path)], (Yaml_parse_error e).
    split; reflexivity.
Qed.

Lemma load_config_startup config_path : emits (W:=W) startup_event (load_config config_path).
Proof. unfold load_config. repeat emits_step; simpl; auto. Qed.

Lemma load_config_not_completed config_path :
  emits (W:=W) not_completed (load_config config_path).
Proof. unfold load_config. repeat emits_step; unfold not_completed; discriminate. Qed.

End ScriptFacts.

Section RunFacts.
Context {W : Type} {E : Externals W}.

Lemma call_ok {A} c (f : W -> (Exception + A) * W) w a w1 :
  f w = (inr a, w1) -> call c f w = mkRun (Ok a) w1 [Called c].
Proof. intros H. unfold call. now rewrite H. Qed.

Lemma call_raise {A} c (f : W -> (Exception + A) * W) w e w1 :
  f w = (inl e, w1) -> call c f w = mkRun (Raise e) w1 [Called c].
Proof. intros H. unfold call. now rewrite H. Qed.

Lemma bind_prefixed {A B} (m m' : M W A) (f : A -> M W B) w w' t :
  m w = prefixed t (m' w') -> bind m f w = prefixed t (bind m' f w').
Proof.
  intros H. unfold bind. rewrite H. unfold prefixed.
  destruct (m' w') as [[a|e|c] w1 t1]; simpl; try reflexivity.
  destruct (f a w1) as [r w2 t2]; simpl. now rewrite app_assoc.
Qed.

Lemma trace_bind_extends {A B} (m : M W A) (f : A -> M W B) w :
  exists t, trace (bind m f w) = trace (m w) ++ t.
Proof.
  unfold bind. destruct (m w) as [[a|e|c] w1 t1]; simpl.
  - destruct (f a w1) as [r w2 t2]. simpl. now exists t2.
  - exists []. now rewrite app_nil_r.
  - exists []. now rewrite app_nil_r.
Qed.

Lemma get_repositories_ok org (w w1 : W) repos :
  get_repos org w = (inr repos, w1) ->
  get_repositories org w =
  mkRun (Ok repos) w1
        [Called (C_get_repos org); Log INFO (Retrieved (length repos) (login org))].
Proof.
  intros H. unfold get_repositories, try_except, bind, call, log, ret.
  rewrite H. reflexivity.
Qed.

Lemma get_repositories_failed org (w w1 : W) e :
  get_repos org w = (inl e, w1) ->
  is_GithubException e = true ->
  get_repositories org w =
  mkRun (Ok []) w1
        [Called (C_get_repos org); Log ERROR (Retrieve_failed (login org) e)].
Proof.
  intros H Hg. unfold get_repositories, try_except, bind, call, log, ret.
  rewrite H. simpl. rewrite Hg. reflexivity.
Qed.

(** The inner loop body on a repository whose clone fails with a git error. *)
Lemma main_repo_clone_failed backup_dir org repo (w w0 w1 w2 : W) e :
  let org_dir := joinpath backup_dir (login org) in
  let p := joinpath org_dir (name repo) in
  path_mkdir org_dir w = (inr tt, w0) ->
  path_exists p w0 = (inr false, w1) ->
  clone_from (clone_url repo) p w1 = (inl e, w2) ->
  is_GitCommandError e = true ->
  main_repo backup_dir org repo w =
  mkRun (Ok tt) w2
        [Called (C_mkdir org_dir); Called (C_exists p);
         Log INFO (Cloning (clone_url repo) p);
         Called (C_clone_from (clone_url repo) p);
         Log ERROR (Clone_failed (clone_url repo) e)].
Proof.
  intros org_dir p Hm Hx Hc Hg. unfold main_repo. fold org_dir. fold p.
  rewrite (bind_ok _ (fun _ => clone_or_pull_repo (clone_url repo) p) _ _ _ _
                   (call_ok (C_mkdir org_dir) _ _ _ _ Hm)).
  rewrite (sync_clone_failed _ _ _ _ _ _ Hx Hc Hg). reflexivity.
Qed.

(** After such a failure the two loops go on with the rest of the
    organisation's repositories and then with the later organisations. *)
Lemma loops_go_on_after_failed_clone
      backup_dir org before repo rest later (w wa wb w0 w1 w2 : W) ta tb e :
  let org_dir := joinpath backup_dir (login org) in
  let p := joinpath org_dir (name repo) in
  get_repositories org w = mkRun (Ok (before ++ repo :: rest)) wa ta ->
  for_each (main_repo backup_dir org) before wa = mkRun (Ok tt) wb tb ->
  path_mkdir org_dir wb = (inr tt, w0) ->
  path_exists p w0 = (inr false, w1) ->
  clone_from (clone_url repo) p w1 = (inl e, w2) ->
  is_GitCommandError e = true ->
  for_each (main_org backup_dir) (org :: later) w =
  prefixed
    (ta ++ tb ++
     [Called (C_mkdir org_dir); Called (C_exists p);
      Log INFO (Cloning (clone_url repo) p);
      Called (C_clone_from (clone_url repo) p);
      Log ERROR (Clone_failed (clone_url repo) e)])
    ((for_each (main_repo backup_dir org) rest ;;
      for_each (main_org backup_dir) later) w2).
Proof.
  intros org_dir p Hr Hb Hm Hx Hc Hg. simpl.
  apply bind_prefixed. unfold main_org.
  rewrite (bind_ok _ _ _ _ _ _ Hr).
  rewrite (for_each_app_ok _ _ _ _ _ _ Hb).
  rewrite (for_each_continues _ _ _ _ _ _
             (main_repo_clone_failed backup_dir org repo _ _ _ _ _ Hm Hx Hc Hg)).
  rewrite !prefixed_prefixed. now rewrite <- app_assoc.
Qed.

Lemma main_org_mkdir_only backup_dir org :
  emits (W:=W)
        (fun ev => forall p, ev = Called (C_mkdir p) -> p = joinpath backup_dir (login org))
        (main_org backup_dir org).
Proof.
  unfold main_org, get_repositories, main_repo, clone_or_pull_repo.
  repeat emits_step; intros q Hq; try discriminate Hq. now inversion Hq.
Qed.

Lemma main_org_first_calls backup_dir org repo rest (w w1 : W) :
  get_repos org w = (inr (repo :: rest), w1) ->
  exists tail,
    calls_of (trace (main_org backup_dir org w)) =
    C_get_repos org :: C_mkdir (joinpath backup_dir (login org)) :: tail.
Proof.
  intros H. unfold main_org.
  rewrite (bind_ok _ _ _ _ _ _ (get_repositories_ok _ _ _ _ H)). simpl.
  destruct (trace_bind_extends (main_repo backup_dir org repo)
              (fun _ => for_each (main_repo backup_dir org) rest) w1) as [t1 ->].
  unfold main_repo.
  destruct (trace_bind_extends
              (call (C_mkdir (joinpath backup_dir (login org)))
                    (path_mkdir (joinpath backup_dir (login org))))
              (fun _ => clone_or_pull_repo (clone_url repo)
                          (joinpath (joinpath backup_dir (login org)) (name repo)))
              w1) as [t2 ->].
  unfold call. destruct (path_mkdir _ w1) as [[e|[]] w2]; simpl;
    rewrite calls_of_app; eexists; reflexivity.
Qed.

End RunFacts.

(** ** The whole run *)

Section MainFacts.
Context {W : Type} {E : Externals W}.

Lemma never_exits_one {A} (m : M W A) :
  never_exits m -> forall w c, result (m w) = Exit c -> c = 1%Z.
Proof. intros H w c Hc. exfalso. now apply (H w c). Qed.

Lemma halts_get_organizations {B} client org_names (g : list Org -> M W B) :
  (forall w, fails (result (g [] w)) /\ Forall startup_event (trace (g [] w))) ->
  halts_without_org (bind (get_organizations client org_names) g).
Proof.
  intros Hg w.
  pose proof (emits_get_organizations startup_event client org_names
                (fun _ => eq_refl) (fun _ => I) (fun _ _ => I) w) as Hev.
  pose proof (get_organizations_accessed client org_names w) as Hacc.
  pose proof (never_exits_get_organizations client org_names w) as Hne.
  destruct (bind_cases (get_organizations client org_names) g w)
    as [(a & w1 & t1 & Hb & ->)|[(e & w1 & t1 & Hb & ->)|(k & w1 & t1 & Hb & ->)]];
    rewrite Hb in Hev, Hacc, Hne; simpl in *; intros H0.
  - rewrite accessed_orgs_app in H0. apply app_eq_nil in H0. destruct H0 as [H0 _].
    specialize (Hacc a eq_refl). rewrite H0 in Hacc. simpl in Hacc.
    destruct a; [|discriminate]. destruct (Hg w1) as [Hf Hall].
    split; [assumption|]. apply Forall_app; auto.
  - auto.
  - exfalso. now apply (Hne k).
Qed.

Ltac halt_step :=
  apply halts_without_org_bind;
  [ solve [repeat emits_step; simpl; auto]
  | try solve [apply never_exits_one; repeat never_exits_step]
  | intros ? ].

Lemma main_halts_without_org : halts_without_org (W:=W) main.
Proof.
  unfold main, setup_logging.
  apply halts_without_org_bind;
    [apply load_config_startup
    |intros w c Hc; now destruct (load_config_exits_fatally _ w c Hc)
    |intros config].
  do 5 halt_step.
  halt_step.
  { intros w c.
    match goal with |- context [truthy ?t] => destruct (negb (truthy t)) end;
      cbv [bind log sys_exit ret result]; intros Hc; inversion Hc; reflexivity. }
  do 3 halt_step.
  apply halts_get_organizations. intros w.
  cbv [bind log sys_exit result trace app fails]. split; [reflexivity|].
  repeat constructor.
Qed.

Ltac fatal_step :=
  apply exits_fatally_bind;
  [ try solve [apply never_exits_fatally; repeat never_exits_step] | intros ? ].

Lemma main_exits_fatally : exits_fatally (W:=W) main.
Proof.
  unfold main, setup_logging.
  apply exits_fatally_bind; [apply load_config_exits_fatally|intros config].
  do 5 fatal_step.
  fatal_step.
  { intros w c.
    match goal with |- context [truthy ?t] => destruct (negb (truthy t)) end;
      cbv [bind log sys_exit ret result trace]; intros Hc; inversion Hc.
    split; [reflexivity|].
    exists [], Token_missing. split; reflexivity. }
  do 3 fatal_step.
  fatal_step; [apply never_exits_fatally, never_exits_get_organizations|].
  fatal_step.
  { intros w c.
    match goal with |- context [match ?l with [] => _ | _ :: _ => _ end] => destruct l end;
      cbv [bind log sys_exit ret result trace]; intros Hc; inversion Hc.
    split; [reflexivity|].
    exists [], No_organizations. split; reflexivity. }
  do 6 fatal_step.
  fatal_step; [apply never_exits_fatally, never_exits_for_each; intros;
               apply never_exits_main_org|].
  apply never_exits_fatally, never_exits_log.
Qed.

Ltac completed_step :=
  apply completes_when_logged_bind;
  [ solve [repeat emits_step; unfold not_completed; discriminate] | intros ? ].

Lemma main_completes_when_logged : completes_when_logged (W:=W) main.
Proof.
  unfold main, setup_logging.
  apply completes_when_logged_bind; [apply load_config_not_completed|intros config].
  do 9 completed_step.
  apply completes_when_logged_bind;
    [apply emits_get_organizations; intros; unfold not_completed; discriminate
    |intros organizations].
  do 7 completed_step.
  apply completes_when_logged_bind;
    [apply emits_for_each; intros; apply not_completed_main_org|intros _].
  intros w _. exists tt. reflexivity.
Qed.

Lemma main_logs_completion (w : W) b :
  result (main w) = Ok b -> In (Log INFO Completed) (trace (main w)).
Proof.
  revert w b. unfold main.
  repeat (apply logs_bind; intros ?).
  intros w b _. simpl. now left.
Qed.

End MainFacts.

(** ** The claims about the run *)

Section RunClaims.
Context {W : Type} {E : Externals W}.

(** C3 (amended): a run that accesses no organisation ends with a
    non-zero exit status, and up to there it makes no call of the repository
    processing: no mkdir (so the backup root is not created), no clone, no
    pull; the only call that writes to the disk is the logging setup, and the
    only file written is the log file it was given. *)
Theorem no_organization_no_backup (w : W) :
  accessed_orgs (trace (main w)) = [] ->
  exit_status (result (main w)) <> 0%Z /\
  Forall (fun c => is_repo_processing c = false) (calls_of (trace (main w))) /\
  Forall (fun c => is_fs_write c = true -> exists log_file, c = C_setup_logging log_file)
         (calls_of (trace (main w))) /\
  (forall p, In p (written_paths None (trace (main w))) ->
             In (C_setup_logging (VStr p)) (calls_of (trace (main w)))).
Proof.
  intros H. destruct (main_halts_without_org w H) as [Hf Hall].
  split; [now apply fails_exit_status|].
  split; [now apply startup_events_calls|].
  split; [now apply startup_writes_are_logging|].
  intros p Hin. destruct (startup_written_paths _ Hall None p Hin) as [Hn|Hc].
  - discriminate Hn.
  - exact Hc.
Qed.

(** C5 (amended): an organisation whose resolution raises a
    [GithubException] is logged and skipped, and the loop goes on with the
    rest of the list; a run of [get_organizations] either attempts every name
    of the list, in order, and returns the organisations it reported as
    accessed, or is stopped by an exception that is not a [GithubException];
    a listing that raises a [GithubException] yields the empty list. An
    exception of another class is handled by neither helper: it leaves the
    helper at once, with no log record. *)
Theorem organization_failure_is_skipped client :
  (forall name rest orgs (w w1 : W) e,
      get_organization client name w = (inl e, w1) ->
      is_GithubException e = true ->
      get_organizations_loop client (name :: rest) orgs w =
      prefixed [Called (C_get_organization name); Log ERROR (Access_failed name e)]
               (get_organizations_loop client rest orgs w1)) /\
  (forall names (w : W),
      match result (get_organizations client (VList names) w) with
      | Ok orgs =>
          calls_of (trace (get_organizations client (VList names) w)) =
          map C_get_organization names /\
          length orgs =
          length (accessed_orgs (trace (get_organizations client (VList names) w)))
      | Raise e => is_GithubException e = false
      | Exit _ => False
      end) /\
  (forall org (w w1 : W) e,
      get_repos org w = (inl e, w1) ->
      is_GithubException e = true ->
      get_repositories org w =
      mkRun (Ok []) w1
            [Called (C_get_repos org); Log ERROR (Retrieve_failed (login org) e)]) /\
  (forall name rest orgs (w w1 : W) e,
      get_organization client name w = (inl e, w1) ->
      is_GithubException e = false ->
      get_organizations_loop client (name :: rest) orgs w =
      mkRun (Raise e) w1 [Called (C_get_organization name)]) /\
  (forall org (w w1 : W) e,
      get_repos org w = (inl e, w1) ->
      is_GithubException e = false ->
      get_repositories org w = mkRun (Raise e) w1 [Called (C_get_repos org)]).
Proof.
  split; [|split; [|split; [|split]]].
  - intros name rest orgs w w1 e Hg He. simpl.
    apply (bind_ok _ (fun orgs' => get_organizations_loop client rest orgs') _ _ _ _
                   (get_organizations_step_skips _ orgs _ _ _ _ Hg He)).
  - intros names w. pose proof (get_organizations_report client names w) as H.
    unfold loop_report in H.
    destruct (result (get_organizations client (VList names) w)); auto.
    destruct H as [Hc (new & Hn & Hl)]. simpl in Hn. subst. auto.
  - intros org w w1 e Hg He. now apply get_repositories_failed.
  - intros name rest orgs w w1 e Hg He. simpl.
    apply (bind_raise _ (fun orgs' => get_organizations_loop client rest orgs') _ _ _ _
                      (get_organizations_step_escapes _ orgs _ _ _ _ Hg He)).
  - intros org w w1 e Hg He.
    unfold get_repositories, try_except, bind, call, log, ret.
    rewrite Hg. simpl. rewrite He. reflexivity.
Qed.

(** C9: the organisation's directory is made by the body of the inner
    loop: for an organisation whose listing is empty, or fails with a
    [GithubException], the round of the outer loop makes the listing call,
    logs and does nothing else; with at least one repository the first thing
    after the listing is the mkdir of the organisation's directory, and no
    other directory is ever made by that round. *)
Theorem empty_organization_makes_no_directory backup_dir org (w : W) :
  (forall w1,
      get_repos org w = (inr [], w1) ->
      main_org backup_dir org w =
      mkRun (Ok tt) w1 [Called (C_get_repos org); Log INFO (Retrieved 0 (login org))]) /\
  (forall e w1,
      get_repos org w = (inl e, w1) ->
      is_GithubException e = true ->
      main_org backup_dir org w =
      mkRun (Ok tt) w1
            [Called (C_get_repos org); Log ERROR (Retrieve_failed (login org) e)]) /\
  (forall repo rest w1,
      get_repos org w = (inr (repo :: rest), w1) ->
      exists tail,
        calls_of (trace (main_org backup_dir org w)) =
        C_get_repos org :: C_mkdir (joinpath backup_dir (login org)) :: tail) /\
  (forall p,
      In (C_mkdir p) (calls_of (trace (main_org backup_dir org w))) ->
      p = joinpath backup_dir (login org)).
Proof.
  split; [|split; [|split]].
  - intros w1 H. unfold main_org.
    rewrite (bind_ok _ _ _ _ _ _ (get_repositories_ok _ _ _ _ H)). reflexivity.
  - intros e w1 H He. unfold main_org.
    rewrite (bind_ok _ _ _ _ _ _ (get_repositories_failed _ _ _ _ H He)). reflexivity.
  - intros repo rest w1 H. now apply (main_org_first_calls backup_dir org repo rest w w1).
  - intros p Hin. pose proof (main_org_mkdir_only backup_dir org w) as Hall.
    rewrite Forall_forall in Hall. apply (Hall (Called (C_mkdir p))); [|reflexivity].
    clear Hall. induction (trace (main_org backup_dir org w)) as [|[lvl m|c] t IH];
      simpl in *; auto.
    destruct Hin as [->|Hin]; auto.
Qed.

(** C6 (amended): a run exits with status 0 exactly when it reaches the
    completion record, whatever the outcomes of its repositories; a non-zero
    status comes either from [sys.exit(1)] right after one of the four fatal
    start-up log records, or from an exception that no handler stopped. *)
Theorem exit_status_of_a_run (w : W) :
  (In (Log INFO Completed) (trace (main w)) <-> exit_status (result (main w)) = 0%Z) /\
  (exit_status (result (main w)) <> 0%Z ->
   (result (main w) = Exit 1 /\
    exists t0 msg, trace (main w) = t0 ++ [Log ERROR msg] /\
                   is_fatal_startup_msg msg = true) \/
   (exists e, result (main w) = Raise e)).
Proof.
  split; [split|].
  - intros Hin. destruct (main_completes_when_logged w Hin) as [a ->]. reflexivity.
  - destruct (result (main w)) as [a|e|c] eqn:Hr; simpl; intros H0.
    + now apply (main_logs_completion w a).
    + discriminate H0.
    + destruct (main_exits_fatally w c Hr) as [-> _]. discriminate H0.
  - intros Hne. destruct (result (main w)) as [a|e|c] eqn:Hr.
    + exfalso. now apply Hne.
    + right. now exists e.
    + left. destruct (main_exits_fatally w c Hr) as [-> Hlast]. auto.
Qed.

End RunClaims.

(** C4: a repository whose clone fails with a [GitCommandError] is logged
    after a single clone call, and the run of the two loops is, after that,
    the run of the loops over the remaining repositories of the organisation
    and the later organisations; in the scenario (acme with svc-a, whose URL
    is unreachable, and svc-b) svc-a is Failed, svc-b is Cloned and the exit
    status is 0. *)
Theorem clone_failure_does_not_stop_the_run :
  (forall (W : Type) (E : Externals W)
          backup_dir org before repo rest later (w wa wb w0 w1 w2 : W) ta tb e,
      get_repositories org w = mkRun (Ok (before ++ repo :: rest)) wa ta ->
      for_each (main_repo backup_dir org) before wa = mkRun (Ok tt) wb tb ->
      path_mkdir (joinpath backup_dir (login org)) wb = (inr tt, w0) ->
      path_exists (joinpath (joinpath backup_dir (login org)) (name repo)) w0
      = (inr false, w1) ->
      clone_from (clone_url repo)
                 (joinpath (joinpath backup_dir (login org)) (name repo)) w1
      = (inl e, w2) ->
      is_GitCommandError e = true ->
      calls_of (trace (main_repo backup_dir org repo wb)) =
      [C_mkdir (joinpath backup_dir (login org));
       C_exists (joinpath (joinpath backup_dir (login org)) (name repo));
       C_clone_from (clone_url repo)
                    (joinpath (joinpath backup_dir (login org)) (name repo))] /\
      outcomes (trace (main_repo backup_dir org repo wb)) = [(clone_url repo, Failed e)] /\
      for_each (main_org backup_dir) (org :: later) w =
      prefixed (ta ++ tb ++ trace (main_repo backup_dir org repo wb))
               ((for_each (main_repo backup_dir org) rest ;;
                 for_each (main_org backup_dir) later) w2)) /\
  exit_status (result (main (E:=Toy.toy) Toy.scenario)) = 0%Z /\
  outcomes (trace (main (E:=Toy.toy) Toy.scenario)) =
  [(clone_url Toy.svc_a, Failed (mkExc GitCommandError "repository not found"));
   (clone_url Toy.svc_b, Cloned)] /\
  Toy.lookup "/backup/acme/svc-b" (Toy.fs (world (main (E:=Toy.toy) Toy.scenario))) =
  Some (Toy.Clone [mkRemote "origin" (clone_url Toy.svc_b)] 7).
Proof.
  split.
  - intros W E backup_dir org before repo rest later w wa wb w0 w1 w2 ta tb e
           Hr Hb Hm Hx Hc Hg.
    rewrite (loops_go_on_after_failed_clone backup_dir org before repo rest later
               _ _ _ _ _ _ _ _ _ Hr Hb Hm Hx Hc Hg).
    rewrite (main_repo_clone_failed backup_dir org repo _ _ _ _ _ Hm Hx Hc Hg).
    repeat split.
  - vm_compute. repeat split.
Qed.

(** ** The theorems at work in the small world *)

Module Examples.
Import Toy Toy_facts.

(** Without git the clone of svc-a raises GitCommandNotFound, which leaves
    the sync as an exception. *)
Lemma clone_branch_error_escapes_witness :
  result (clone_or_pull_repo (E:=toy) (clone_url svc_b) svc_b_path no_git) =
  Raise (mkExc (OtherError "GitCommandNotFound") "git") /\
  outcomes (trace (clone_or_pull_repo (E:=toy) (clone_url svc_b) svc_b_path no_git)) = [].
Proof.
  apply (clone_branch_error_escapes (E:=toy) (clone_url svc_b) svc_b_path
                                    no_git no_git no_git); reflexivity.
Defined.

(** ... and ends the whole run there: svc-a is not reported Failed, svc-b is
    never tried, the exit status is 1. *)
Example no_git_run_aborts :
  exit_status (result (main (E:=toy) no_git)) = 1%Z /\
  outcomes (trace (main (E:=toy) no_git)) = [] /\
  filter is_clone_call (calls_of (trace (main (E:=toy) no_git))) =
  [C_clone_from (clone_url svc_a) "/backup/acme/svc-a"].
Proof. vm_compute. repeat split. Qed.


Lemma no_organization_no_backup_witness :
  exit_status (result (main (E:=toy) unknown_org)) <> 0%Z /\
  Forall (fun c => is_repo_processing c = false)
         (calls_of (trace (main (E:=toy) unknown_org))) /\
  Forall (fun c => is_fs_write c = true -> exists log_file, c = C_setup_logging log_file)
         (calls_of (trace (main (E:=toy) unknown_org))) /\
  (forall p, In p (written_paths None (trace (main (E:=toy) unknown_org))) ->
             In (C_setup_logging (VStr p)) (calls_of (trace (main (E:=toy) unknown_org)))).
Proof. apply (no_organization_no_backup (E:=toy) unknown_org). reflexivity. Defined.

(** C3, as stated, fails where the log file is configured inside the
    backup root: no organisation is accessed, the run exits with status 1, and
    it has opened [/backup/backup.log] and appended its two error records to
    it. *)
Lemma log_file_under_backup_root :
  accessed_orgs (trace (main (E:=toy) log_under_root)) = [] /\
  exit_status (result (main (E:=toy) log_under_root)) = 1%Z /\
  config_entry config_log_under_root "backup" "destination_path" = Some (VStr "/backup") /\
  written_paths None (trace (main (E:=toy) log_under_root)) =
  ["/backup/backup.log"; "/backup/backup.log"; "/backup/backup.log"] /\
  under "/backup" "/backup/backup.log" = true.
Proof. vm_compute. repeat split. Qed.

Lemma cloned_is_valid_clone_witness :
  result (clone_or_pull_repo (E:=toy) (clone_url svc_b) svc_b_path scenario) = Ok tt /\
  outcomes (trace (clone_or_pull_repo (E:=toy) (clone_url svc_b) svc_b_path scenario)) =
  [(clone_url svc_b, Cloned)] /\
  valid_clone (E:=toy) (clone_url svc_b) svc_b_path
              (world (clone_or_pull_repo (E:=toy) (clone_url svc_b) svc_b_path scenario)).
Proof.
  eapply (proj1 (cloned_is_valid_clone (E:=toy) toy_clone_contract
                   (clone_url svc_b) svc_b_path scenario)); reflexivity.
Defined.

Lemma clone_then_sync_takes_update_branch_witness :
  outcomes (trace (clone_or_pull_repo (E:=toy) (clone_url svc_b) svc_b_path scenario)) =
  [(clone_url svc_b, Cloned)] /\
  result (clone_or_pull_repo (E:=toy) (clone_url svc_b) svc_b_path
            (world (clone_or_pull_repo (E:=toy) (clone_url svc_b) svc_b_path scenario)))
  = Ok tt /\
  chosen_action
    (calls_of (trace (clone_or_pull_repo (E:=toy) (clone_url svc_b) svc_b_path
       (world (clone_or_pull_repo (E:=toy) (clone_url svc_b) svc_b_path scenario)))))
  = Some Update_action /\
  outcomes (trace (clone_or_pull_repo (E:=toy) (clone_url svc_b) svc_b_path
       (world (clone_or_pull_repo (E:=toy) (clone_url svc_b) svc_b_path scenario))))
  = [(clone_url svc_b, Updated)].
Proof.
  pose proof (clone_then_sync_takes_update_branch (E:=toy) toy_clone_contract
                (clone_url svc_b) svc_b_path scenario scenario _ eq_refl eq_refl) as H.
  cbv zeta in H.
  destruct H as [H1 [H2 [H3 [_ (h & r & _ & _ & Hc & Hok & _)]]]].
  do 3 (split; [assumption|]).
  vm_compute in Hc. injection Hc as <- <-.
  exact (proj1 (Hok _ eq_refl)).
Defined.

(** C7, as stated, fails on a repository without commits: the clone
    succeeds, the second sync takes the update branch and returns, and its
    pull fails, so that the outcome is Failed and not Updated. *)
Lemma empty_repository_pull_fails :
  outcomes (trace (clone_or_pull_repo (E:=toy) (clone_url svc_b) svc_b_path
                                      empty_upstream)) =
  [(clone_url svc_b, Cloned)] /\
  result (clone_or_pull_repo (E:=toy) (clone_url svc_b) svc_b_path
            (world (clone_or_pull_repo (E:=toy) (clone_url svc_b) svc_b_path
                                       empty_upstream))) = Ok tt /\
  outcomes (trace (clone_or_pull_repo (E:=toy) (clone_url svc_b) svc_b_path
            (world (clone_or_pull_repo (E:=toy) (clone_url svc_b) svc_b_path
                                       empty_upstream)))) =
  [(clone_url svc_b, Failed (mkExc GitCommandError "no such ref was fetched"))].
Proof. vm_compute. repeat split. Qed.


Lemma organization_failure_is_skipped_witness :
  get_organizations_loop (E:=toy) (mkClient (VStr "t0ken") 100)
                         [VStr "ghost"; VStr "acme"] [] scenario =
  mkRun (Ok [acme]) scenario
        [Called (C_get_organization (VStr "ghost"));
         Log ERROR (Access_failed (VStr "ghost") (mkExc GithubException "404 Not Found"));
         Called (C_get_organization (VStr "acme"));
         Log INFO (Accessed_organization (VStr "acme"))] /\
  get_repositories (E:=toy) acme listing_fails =
  mkRun (Ok []) listing_fails
        [Called (C_get_repos acme);
         Log ERROR (Retrieve_failed "acme" (mkExc GithubException "502 Bad Gateway"))].
Proof.
  split.
  - exact (proj1 (organization_failure_is_skipped (E:=toy) (mkClient (VStr "t0ken") 100))
                 (VStr "ghost") [VStr "acme"] [] scenario scenario _ eq_refl eq_refl).
  - exact (proj1 (proj2 (proj2 (organization_failure_is_skipped (E:=toy)
                                  (mkClient (VStr "t0ken") 100))))
                 acme listing_fails listing_fails _ eq_refl eq_refl).
Defined.

(** C5, as stated, fails where the lookup of an organisation breaks with an
    error that is not the API client's: the run ends there with status 1, the
    organisation is not logged as failed and the next one is never tried. *)
Lemma resolution_error_aborts_run :
  main (E:=toy) resolution_breaks =
  mkRun (Raise (mkExc (OtherError "ConnectionError") "connection reset"))
        resolution_breaks
        [Called (C_read_config CONFIG_FILE);
         Called (C_setup_logging (VStr "backup.log"));
         Called (C_Github (VStr "t0ken") 100);
         Called (C_get_organization (VStr "acme"))] /\
  exit_status (result (main (E:=toy) resolution_breaks)) = 1%Z /\
  t_get_organization (mkClient (VStr "t0ken") 100) (VStr "globex") resolution_breaks =
  (inr globex, resolution_breaks).
Proof. vm_compute. repeat split. Qed.

Lemma empty_organization_makes_no_directory_witness :
  main_org (E:=toy) "/backup" acme listing_fails =
  mkRun (Ok tt) listing_fails
        [Called (C_get_repos acme);
         Log ERROR (Retrieve_failed "acme" (mkExc GithubException "502 Bad Gateway"))].
Proof.
  exact (proj1 (proj2 (empty_organization_makes_no_directory (E:=toy) "/backup" acme
                         listing_fails))
               _ listing_fails eq_refl eq_refl).
Defined.

(** The listing failure of the only organisation leaves the backup root
    alone on the disk and the run successful. *)
Example listing_failure_run :
  exit_status (result (main (E:=toy) listing_fails)) = 0%Z /\
  fs (world (main (E:=toy) listing_fails)) = [("/backup", Dir)].
Proof. vm_compute. split; reflexivity. Qed.

Lemma clone_failure_does_not_stop_the_run_witness :
  for_each (main_org (E:=toy) "/backup") [acme] scenario =
  prefixed
    ([Called (C_get_repos acme); Log INFO (Retrieved 2 "acme")] ++ [] ++
     trace (main_repo (E:=toy) "/backup" acme svc_a scenario))
    ((for_each (main_repo (E:=toy) "/backup" acme) [svc_b] ;;
      for_each (main_org (E:=toy) "/backup") [])
       (set_fs scenario [("/backup/acme", Dir)])).
Proof.
  refine (proj2 (proj2 (proj1 clone_failure_does_not_stop_the_run World toy
            "/backup" acme [] svc_a [svc_b] [] scenario scenario scenario
            _ _ _ _ [] _ eq_refl eq_refl eq_refl eq_refl eq_refl eq_refl))).
Defined.

(** C6, as stated, fails where the directory of acme cannot be created: the
    configuration is read and complete, the token is there, acme is accessed
    and listed, the backup root is there, and the run ends in the middle of
    the loop with status 1 on the PermissionError of the mkdir. *)
Lemma read_only_org_dir_exits_nonzero :
  exit_status (result (main (E:=toy) read_only_org_dir)) = 1%Z /\
  result (main (E:=toy) read_only_org_dir) =
  Raise (mkExc (OtherError "PermissionError") "/backup/acme") /\
  accessed_orgs (trace (main (E:=toy) read_only_org_dir)) = [VStr "acme"] /\
  ~ fatal_startup_condition (E:=toy) read_only_org_dir.
Proof.
  split; [reflexivity|]. split; [reflexivity|]. split; [reflexivity|].
  unfold fatal_startup_condition.
  intros [[[H|[H|H]]|H]|H]; vm_compute in H; discriminate H.
Qed.

End Examples.

(** ** The start of a run *)

Section Startup.
Context {W : Type} {E : Externals W}.

Lemma config_entry_getitem config section key x :
  config_entry config section key = Some x ->
  exists v, getitem config section = inr v /\ getitem v key = inr x.
Proof.
  unfold config_entry. destruct (getitem config section) as [e|v]; [discriminate|].
  destruct (getitem v key) as [e|y] eqn:Hk; [discriminate|]. intros [= ->].
  exists v. split; [reflexivity|assumption].
Qed.

Ltac run_main :=
  unfold main, load_config, setup_logging, bind, try_except, call, lift, log, ret,
         sys_exit; simpl.

(** X1: when the configuration file is not found, or is not valid YAML, the
    run logs the error and exits with status 1, and reading the file is the
    only call it has made. *)
Theorem config_error_exits_at_once (w w1 : W) e :
  read_config CONFIG_FILE w = (inl e, w1) ->
  is_FileNotFoundError e = true \/ is_YAMLError e = true ->
  main w =
  mkRun (Exit 1) w1
        [Called (C_read_config CONFIG_FILE); Log ERROR (config_failure CONFIG_FILE e)].
Proof.
  intros Hr Hc. run_main. rewrite Hr. unfold config_failure. simpl.
  destruct (is_FileNotFoundError e); simpl; [reflexivity|].
  destruct Hc as [Hc|Hc]; [discriminate|]. rewrite Hc. reflexivity.
Qed.

(** X2: any other exception raised while the configuration is read (a
    permission error, a directory in place of the file) is not handled: it
    ends the run as an exception, with status 1 and no log record. *)
Theorem config_read_error_escapes (w w1 : W) e :
  read_config CONFIG_FILE w = (inl e, w1) ->
  is_FileNotFoundError e = false ->
  is_YAMLError e = false ->
  main w = mkRun (Raise e) w1 [Called (C_read_config CONFIG_FILE)] /\
  exit_status (result (main w)) = 1%Z.
Proof.
  intros Hr Hf Hy.
  assert (main w = mkRun (Raise e) w1 [Called (C_read_config CONFIG_FILE)]) as ->.
  { run_main. rewrite Hr. simpl. rewrite Hf, Hy. reflexivity. }
  split; reflexivity.
Qed.

(** X3: a configuration that is read but has no [backup] entry ends the
    run with the exception of the lookup, before logging is set up: a
    [TypeError] when the file does not hold a mapping (an empty file gives
    None), a [KeyError] when the mapping lacks the key. *)
Theorem config_without_backup_raises (w w1 : W) config :
  read_config CONFIG_FILE w = (inr config, w1) ->
  ((forall d, config <> VDict d) ->
   main w =
   mkRun (Raise (mkExc TypeError "object is not subscriptable with a str")) w1
         [Called (C_read_config CONFIG_FILE)]) /\
  (forall d, config = VDict d -> assoc "backup" d = None ->
   main w = mkRun (Raise (mkExc KeyError "backup")) w1
                  [Called (C_read_config CONFIG_FILE)]).
Proof.
  intros Hr. split.
  - intros Hd. run_main. rewrite Hr. simpl.
    destruct config; try reflexivity. exfalso. now apply (Hd d).
  - intros d -> Ha. run_main. rewrite Hr. simpl. rewrite Ha. reflexivity.
Qed.

(** X4: with an empty token (any value Python takes as false) the run logs
    the error and exits with status 1 right after logging is set up: no
    GitHub client is built and GitHub is never called. *)
Theorem missing_token_exits (w w1 w2 : W) config log_file token :
  read_config CONFIG_FILE w = (inr config, w1) ->
  config_entry config "backup" "log_file" = Some log_file ->
  logging_setup log_file w1 = (inr tt, w2) ->
  config_entry config "github" "token" = Some token ->
  truthy token = false ->
  main w =
  mkRun (Exit 1) w2
        [Called (C_read_config CONFIG_FILE); Called (C_setup_logging log_file);
         Log ERROR Token_missing].
Proof.
  intros Hr Hl Hs Ht Hf.
  destruct (config_entry_getitem _ _ _ _ Hl) as (backup & Hb & Hlf).
  destruct (config_entry_getitem _ _ _ _ Ht) as (github & Hg & Htk).
  run_main. rewrite Hr. simpl. rewrite Hb. simpl. rewrite Hlf. simpl.
  rewrite Hs. simpl. rewrite Hg. simpl. rewrite Htk. simpl. rewrite Hf. reflexivity.
Qed.

End Startup.

(** ** The list of organisations *)

Section Organizations.
Context {W : Type} {E : Externals W}.

Lemma get_organizations_iterates client org_names names (w : W) :
  py_iter org_names = inr names ->
  loop_report names [] (get_organizations client org_names w).
Proof.
  intros Hi. unfold get_organizations. rewrite Hi.
  pose proof (get_organizations_loop_report client names [] w) as H.
  unfold bind, lift. destruct (get_organizations_loop client names [] w). exact H.
Qed.

(** X5: the value under [organizations] is iterated as Python iterates it:
    a scalar string gives one lookup per character, and None, a boolean or a
    number raise a [TypeError] before any lookup. *)
Theorem organizations_value_is_iterated client (w : W) :
  (forall s orgs,
      result (get_organizations client (VStr s) w) = Ok orgs ->
      calls_of (trace (get_organizations client (VStr s) w)) =
      map (fun c => C_get_organization (VStr (String c EmptyString)))
          (list_ascii_of_string s)) /\
  (forall v,
      v = VNone \/ (exists b, v = VBool b) \/ (exists z, v = VInt z) ->
      get_organizations client v w =
      mkRun (Raise (mkExc TypeError "object is not iterable")) w []).
Proof.
  split.
  - intros s orgs Hr.
    pose proof (get_organizations_iterates client (VStr s) _ w eq_refl) as H.
    unfold loop_report in H. rewrite Hr in H. destruct H as [Hc _].
    rewrite Hc. now rewrite map_map.
  - intros v [->|[[b ->]|[z ->]]]; reflexivity.
Qed.

Lemma get_organizations_loop_stateless client answer (w : W) names :
  (forall n, In n names -> get_organization client n w = (answer n, w)) ->
  (forall n e, In n names -> answer n = inl e -> is_GithubException e = true) ->
  forall orgs,
    result (get_organizations_loop client names orgs w) = Ok (orgs ++ resolved answer names) /\
    world (get_organizations_loop client names orgs w) = w.
Proof.
  induction names as [|name rest IH]; intros Hans Hex orgs; simpl.
  - rewrite app_nil_r. split; reflexivity.
  - assert (Hrest : forall n, In n rest -> get_organization client n w = (answer n, w))
      by (intros n Hn; apply Hans; now right).
    assert (Hrex : forall n e, In n rest -> answer n = inl e -> is_GithubException e = true)
      by (intros n e Hn; apply Hex; now right).
    pose proof (Hans name (or_introl eq_refl)) as Hg.
    unfold resolved. simpl. fold (resolved answer rest).
    destruct (answer name) as [e|org] eqn:Ha.
    + pose proof (Hex name e (or_introl eq_refl) Ha) as He.
      rewrite (bind_ok _ _ _ _ _ _ (get_organizations_step_skips _ orgs _ _ _ _ Hg He)).
      simpl. apply (IH Hrest Hrex).
    + rewrite (bind_ok _ _ _ _ _ _ (get_organizations_step_ok _ orgs _ _ _ _ Hg)).
      simpl. destruct (IH Hrest Hrex (orgs ++ [org])) as [Hr Hw].
      rewrite Hr, Hw, <- app_assoc. split; reflexivity.
Qed.

(** X6: when the lookups do not change the world and fail only with
    [GithubException], [get_organizations] returns the organisations that
    resolve, in the order of the list and as often as they are listed. *)
Theorem get_organizations_keeps_order client answer (w : W) names :
  (forall n, In n names -> get_organization client n w = (answer n, w)) ->
  (forall n e, In n names -> answer n = inl e -> is_GithubException e = true) ->
  result (get_organizations client (VList names) w) = Ok (resolved answer names) /\
  world (get_organizations client (VList names) w) = w.
Proof.
  intros Hans Hex.
  destruct (get_organizations_loop_stateless client answer w names Hans Hex [])
    as [Hr Hw].
  unfold get_organizations. simpl. unfold bind, lift.
  destruct (get_organizations_loop client names [] w) as [r w1 t1].
  simpl in *. now subst.
Qed.

End Organizations.

(** ** The outcomes of the syncs *)

Section Outcomes.
Context {W : Type} {E : Externals W}.

(** X7: a sync that returns has logged exactly one outcome, for its URL;
    a sync that raises has logged none; a sync never exits the process. *)
Theorem sync_logs_one_outcome url p (w : W) :
  match result (clone_or_pull_repo url p w) with
  | Ok _ => exists o, outcomes (trace (clone_or_pull_repo url p w)) = [(url, o)]
  | Raise _ => outcomes (trace (clone_or_pull_repo url p w)) = []
  | Exit _ => False
  end.
Proof.
  destruct (sync_cases url p w); simpl; try reflexivity;
    try (unfold update_failure; destruct (is_GitCommandError e); simpl);
    eexists; reflexivity.
Qed.

(** X8: when the path exists, the sync returns whatever opening the
    repository, finding its remote or pulling does: the outcome is Updated
    or Failed, and nothing is raised. *)
Theorem update_branch_always_returns url p (w w0 : W) :
  path_exists p w = (inr true, w0) ->
  result (clone_or_pull_repo url p w) = Ok tt /\
  (outcomes (trace (clone_or_pull_repo url p w)) = [(url, Updated)] \/
   exists e, outcomes (trace (clone_or_pull_repo url p w)) = [(url, Failed e)]).
Proof.
  intros Hx.
  destruct (sync_cases url p w) as
    [e' w0' H|w0' w1 H|w0' w1 e' H|w0' w1 e' H|w0' w1 e' H
     |w0' w1 h e' H|w0' w1 w2 h r e' H|w0' w1 w2 h r H];
    rewrite Hx in H; inversion H; subst; simpl; (split; [reflexivity|]);
    try (left; reflexivity);
    right; exists e'; unfold update_failure; destruct (is_GitCommandError e');
    reflexivity.
Qed.

Lemma call_trace {A} c (f : W -> (Exception + A) * W) w r w1 t1 :
  call c f w = mkRun r w1 t1 -> t1 = [Called c].
Proof.
  unfold call. destruct (f w) as [[e|a] w2]; intros [= _ _ <-]; reflexivity.
Qed.

(** What a round of the inner loop that returns has done. *)
Lemma main_repo_report backup_dir org repo (w : W) :
  result (main_repo backup_dir org repo w) = Ok tt ->
  (exists o, outcomes (trace (main_repo backup_dir org repo w)) = [(clone_url repo, o)]) /\
  exists_paths (calls_of (trace (main_repo backup_dir org repo w))) =
  [joinpath (joinpath backup_dir (login org)) (name repo)] /\
  mkdir_paths (calls_of (trace (main_repo backup_dir org repo w))) =
  [joinpath backup_dir (login org)].
Proof.
  unfold main_repo.
  destruct (bind_cases
              (call (C_mkdir (joinpath backup_dir (login org)))
                    (path_mkdir (joinpath backup_dir (login org))))
              (fun _ => clone_or_pull_repo (clone_url repo)
                          (joinpath (joinpath backup_dir (login org)) (name repo))) w)
    as [(a & w1 & t1 & Hb & ->)|[(e & w1 & t1 & Hb & ->)|(k & w1 & t1 & Hb & ->)]];
    simpl; try discriminate.
  apply call_trace in Hb. subst t1. simpl.
  destruct (sync_cases (clone_url repo)
              (joinpath (joinpath backup_dir (login org)) (name repo)) w1);
    simpl; try discriminate; intros _;
    try (unfold update_failure; destruct (is_GitCommandError e); simpl);
    (split; [eexists; reflexivity|]); split; reflexivity.
Qed.

(** X9: an inner loop that returns has logged one outcome per repository,
    in the order of the listing and under the repository's clone URL, has
    tested the path [backup_dir / org.login / repo.name] of each, and has
    called mkdir on the organisation's directory once per repository. *)
Theorem inner_loop_reports_every_repository backup_dir org repos :
  forall w : W,
    result (for_each (main_repo backup_dir org) repos w) = Ok tt ->
    map fst (outcomes (trace (for_each (main_repo backup_dir org) repos w))) =
    map clone_url repos /\
    exists_paths (calls_of (trace (for_each (main_repo backup_dir org) repos w))) =
    map (fun r => joinpath (joinpath backup_dir (login org)) (name r)) repos /\
    mkdir_paths (calls_of (trace (for_each (main_repo backup_dir org) repos w))) =
    map (fun _ => joinpath backup_dir (login org)) repos.
Proof.
  induction repos as [|repo rest IH]; intros w; simpl.
  - intros _. repeat split.
  - pose proof (main_repo_report backup_dir org repo w) as Hrep.
    destruct (bind_cases (main_repo backup_dir org repo)
                (fun _ => for_each (main_repo backup_dir org) rest) w)
      as [(a & w1 & t1 & Hb & ->)|[(e & w1 & t1 & Hb & ->)|(k & w1 & t1 & Hb & ->)]];
      simpl; try discriminate.
    rewrite Hb in Hrep. simpl in Hrep. destruct a.
    destruct (Hrep eq_refl) as [[o Ho] [Hx Hm]]. intros Hr.
    destruct (IH w1 Hr) as [IHo [IHx IHm]].
    rewrite outcomes_app, calls_of_app, map_app. unfold exists_paths, mkdir_paths in *.
    rewrite !flat_map_app, Ho, Hx, Hm, IHo, IHx, IHm. repeat split.
Qed.

End Outcomes.

(** ** What stops the loops, and what does not *)

Section Loops.
Context {W : Type} {E : Externals W}.

(** X10: there is no handler around the mkdir of the organisation's
    directory: when it raises, the repository is not synced, the exception
    leaves both loops, and neither the remaining repositories nor the later
    organisations are processed. *)
Theorem mkdir_failure_stops_the_loops
        backup_dir org before repo rest later (w wa wb w0 : W) ta tb e :
  get_repositories org w = mkRun (Ok (before ++ repo :: rest)) wa ta ->
  for_each (main_repo backup_dir org) before wa = mkRun (Ok tt) wb tb ->
  path_mkdir (joinpath backup_dir (login org)) wb = (inl e, w0) ->
  for_each (main_org backup_dir) (org :: later) w =
  mkRun (Raise e) w0 (ta ++ tb ++ [Called (C_mkdir (joinpath backup_dir (login org)))]).
Proof.
  intros Hr Hb Hm. simpl.
  apply bind_raise. unfold main_org.
  rewrite (bind_ok _ _ _ _ _ _ Hr).
  rewrite (for_each_app_ok _ _ _ _ _ _ Hb). simpl.
  assert (main_repo backup_dir org repo wb =
          mkRun (Raise e) w0 [Called (C_mkdir (joinpath backup_dir (login org)))]) as Hrepo.
  { unfold main_repo. apply bind_raise. now apply call_raise. }
  rewrite (bind_raise _ (fun _ => for_each (main_repo backup_dir org) rest) _ _ _ _ Hrepo).
  reflexivity.
Qed.

(** X11: a listing that raises anything but a [GithubException] is not
    handled: the exception leaves the outer loop after the listing call,
    with no log record, and the later organisations are not processed. *)
Theorem listing_error_stops_the_loop backup_dir org later (w w1 : W) e :
  get_repos org w = (inl e, w1) ->
  is_GithubException e = false ->
  for_each (main_org backup_dir) (org :: later) w =
  mkRun (Raise e) w1 [Called (C_get_repos org)].
Proof.
  intros Hg He. simpl. apply bind_raise. unfold main_org. apply bind_raise.
  unfold get_repositories, try_except, bind, call, log, ret.
  rewrite Hg. simpl. rewrite He. reflexivity.
Qed.

(** X14: once the organisation's directory is made and the path exists,
    no failure of the update stops the inner loop: the round returns and the
    loop goes on with the next repository. *)
Theorem update_failure_never_stops backup_dir org repo rest (w w0 w1 : W) :
  path_mkdir (joinpath backup_dir (login org)) w = (inr tt, w0) ->
  path_exists (joinpath (joinpath backup_dir (login org)) (name repo)) w0 = (inr true, w1) ->
  result (main_repo backup_dir org repo w) = Ok tt /\
  for_each (main_repo backup_dir org) (repo :: rest) w =
  prefixed (trace (main_repo backup_dir org repo w))
           (for_each (main_repo backup_dir org) rest
                     (world (main_repo backup_dir org repo w))).
Proof.
  intros Hm Hx.
  assert (result (main_repo backup_dir org repo w) = Ok tt) as Hr.
  { unfold main_repo.
    rewrite (bind_ok _ (fun _ => clone_or_pull_repo (clone_url repo)
                          (joinpath (joinpath backup_dir (login org)) (name repo)))
                     _ _ _ _ (call_ok (C_mkdir _) _ _ _ _ Hm)).
    simpl.
    destruct (sync_cases (clone_url repo)
                (joinpath (joinpath backup_dir (login org)) (name repo)) w0) as
      [e' w0' H|w0' w2 H|w0' w2 e' H|w0' w2 e' H|w0' w2 e' H
       |w0' w2 h e' H|w0' w2 w3 h r e' H|w0' w2 w3 h r H];
      rewrite Hx in H; inversion H; reflexivity. }
  split; [assumption|].
  apply for_each_continues.
  destruct (main_repo backup_dir org repo w) as [r w' t']. simpl in *. now subst.
Qed.

End Loops.

(** ** The run from its first call to its last record *)

Section RunShape.
Context {W : Type} {E : Externals W}.

Lemma ends_with_completion_bind {A B} (m : M W A) (f : A -> M W B) :
  emits not_completed m -> (forall a, ends_with_completion (f a)) ->
  ends_with_completion (bind m f).
Proof.
  intros Hm Hf w b. specialize (Hm w).
  destruct (bind_cases m f w)
    as [(a & w1 & t1 & Hb & ->)|[(e & w1 & t1 & Hb & ->)|(k & w1 & t1 & Hb & ->)]];
    rewrite Hb in Hm; simpl in *; intros Hr; try discriminate.
  destruct (Hf a w1 b Hr) as (t & Ht & Hall).
  exists (t1 ++ t). rewrite Ht, app_assoc. split; [reflexivity|].
  apply Forall_app; auto.
Qed.

Ltac last_step :=
  apply ends_with_completion_bind;
  [ solve [repeat emits_step; unfold not_completed; discriminate] | intros ? ].

(** X12: a run that returns has logged the completion record once, as its
    last event. *)
Theorem completion_record_is_last (w : W) b :
  result (main w) = Ok b ->
  exists t, trace (main w) = t ++ [Log INFO Completed] /\
            ~ In (Log INFO Completed) t.
Proof.
  assert (ends_with_completion (W:=W) main) as H.
  { unfold main, setup_logging.
    apply ends_with_completion_bind; [apply load_config_not_completed|intros config].
    do 9 last_step.
    apply ends_with_completion_bind;
      [apply emits_get_organizations; intros; unfold not_completed; discriminate
      |intros organizations].
    do 7 last_step.
    apply ends_with_completion_bind;
      [apply emits_for_each; intros; apply not_completed_main_org|intros _].
    intros w' b' _. exists []. split; [reflexivity|constructor]. }
  intros Hr. destruct (H w b Hr) as (t & Ht & Hall). exists t. split; [assumption|].
  intros Hin. rewrite Forall_forall in Hall. now apply (Hall _ Hin).
Qed.

Lemma In_calls_of c t : In c (calls_of t) -> In (Called c) t.
Proof.
  induction t as [|[lvl m|c'] t IH]; simpl; auto.
  intros [->|H]; auto.
Qed.

Ltac client_leaf :=
  solve [repeat emits_step; intros ? ? Heq; discriminate Heq].

Lemma main_client_call_ok : emits (W:=W) client_call_ok main.
Proof.
  unfold main, setup_logging, load_config.
  do 6 (apply emits_bind; [client_leaf|intros ?]).
  match goal with |- context [truthy ?t] => destruct (truthy t) eqn:Ht end; simpl.
  - apply emits_bind; [client_leaf|intros _].
    apply emits_bind;
      [apply emits_call; intros token page [= <- <-]; split; [reflexivity|assumption]
      |intros client].
    do 2 (apply emits_bind; [client_leaf|intros ?]).
    apply emits_bind;
      [apply emits_get_organizations; intros; intros ? ? Heq; discriminate Heq
      |intros organizations].
    do 7 (apply emits_bind; [client_leaf|intros ?]).
    apply emits_bind; [|intros _; client_leaf].
    apply emits_for_each. intros org.
    unfold main_org, get_repositories, main_repo, clone_or_pull_repo. client_leaf.
  - intros w. cbv [bind log sys_exit trace app].
    apply Forall_cons; [|apply Forall_nil].
    intros ? ? Heq. discriminate Heq.
Qed.

(** X13: whenever a run builds the GitHub client, it is with a token that
    Python takes as true and with a page size of 100. *)
Theorem client_built_with_token (w : W) token page :
  In (C_Github token page) (calls_of (trace (main w))) ->
  page = 100%Z /\ truthy token = true.
Proof.
  intros Hin. apply In_calls_of in Hin.
  pose proof (main_client_call_ok w) as Hall. rewrite Forall_forall in Hall.
  now apply (Hall _ Hin).
Qed.

End RunShape.

(** ** Where a run writes, and how it ends *)

Section Mirror.
Context {W : Type} {E : Externals W}.

Lemma emits_for_each_in {A} (P : Event -> Prop) (body : A -> M W unit) l :
  (forall x, In x l -> emits P (body x)) -> emits P (for_each body l).
Proof.
  induction l as [|x xs IH]; intros Hb; simpl.
  - apply emits_ret.
  - apply emits_bind.
    + apply Hb. now left.
    + intros _. apply IH. intros y Hy. apply Hb. now right.
Qed.

Lemma main_repo_round_event backup_dir org repos repo :
  In repo repos -> emits (W:=W) (round_event backup_dir org repos)
                         (main_repo backup_dir org repo).
Proof.
  intros Hin. unfold main_repo, clone_or_pull_repo.
  repeat emits_step; simpl;
    first [exact I | reflexivity | exists repo; repeat split; assumption].
Qed.

(** X15: a round of the outer loop whose listing returns [repos] lists only
    its own organisation, makes no directory but [backup_dir / org.login], and
    tests, opens and clones into no path but [backup_dir / org.login /
    repo.name] for a repository [repo] of that listing, each clone being from
    that repository's own clone URL. *)
Theorem round_touches_listed_repositories backup_dir org repos (w w1 : W) :
  get_repos org w = (inr repos, w1) ->
  Forall (round_event backup_dir org repos) (trace (main_org backup_dir org w)).
Proof.
  intros Hg. unfold main_org.
  rewrite (bind_ok _ _ _ _ _ _ (get_repositories_ok _ _ _ _ Hg)). simpl.
  constructor; [reflexivity|]. constructor; [exact I|].
  apply (emits_for_each_in (round_event backup_dir org repos)).
  intros repo Hin. now apply main_repo_round_event.
Qed.

(** X16: the exit status of a run is 0 or 1. *)
Theorem exit_status_is_0_or_1 (w : W) :
  exit_status (result (main w)) = 0%Z \/ exit_status (result (main w)) = 1%Z.
Proof.
  destruct (result (main w)) as [a|e|c] eqn:Hr; simpl; auto.
  destruct (main_exits_fatally w c Hr) as [-> _]. now right.
Qed.

(** X17: the two GitHub helpers never let a [GithubException] out and
    never exit the process: what they raise is of another class. *)
Theorem api_errors_never_escape client org_names org (w : W) :
  match result (get_organizations client org_names w) with
  | Raise e => is_GithubException e = false
  | Exit _ => False
  | Ok _ => True
  end /\
  match result (get_repositories org w) with
  | Raise e => is_GithubException e = false
  | Exit _ => False
  | Ok _ => True
  end.
Proof.
  split.
  - destruct (py_iter org_names) as [e|names] eqn:Hi.
    + unfold get_organizations. rewrite Hi. simpl.
      destruct org_names; simpl in Hi; inversion Hi; reflexivity.
    + pose proof (get_organizations_iterates client org_names names w Hi) as H.
      unfold loop_report in H.
      destruct (result (get_organizations client org_names w)); auto.
  - unfold get_repositories, try_except, bind, call, log, ret.
    destruct (get_repos org w) as [[e|repos] w1]; simpl; auto.
    destruct (is_GithubException e) eqn:He; simpl; auto.
Qed.

End Mirror.

(** ** More runs in the small world *)

Module More_examples.
Import Toy.

Lemma config_error_exits_at_once_witness :
  main (E:=toy) missing_config =
  mkRun (Exit 1) missing_config
        [Called (C_read_config CONFIG_FILE);
         Log ERROR (config_failure CONFIG_FILE (mkExc FileNotFoundError "config.yaml"))].
Proof.
  exact (config_error_exits_at_once (E:=toy) missing_config missing_config _
           eq_refl (or_introl eq_refl)).
Defined.

Lemma config_read_error_escapes_witness :
  main (E:=toy) unreadable_config =
  mkRun (Raise (mkExc (OtherError "PermissionError") "config.yaml")) unreadable_config
        [Called (C_read_config CONFIG_FILE)] /\
  exit_status (result (main (E:=toy) unreadable_config)) = 1%Z.
Proof.
  exact (config_read_error_escapes (E:=toy) unreadable_config unreadable_config _
           eq_refl eq_refl eq_refl).
Defined.

Lemma config_without_backup_raises_witness :
  main (E:=toy) empty_config =
  mkRun (Raise (mkExc TypeError "object is not subscriptable with a str")) empty_config
        [Called (C_read_config CONFIG_FILE)].
Proof.
  apply (proj1 (config_without_backup_raises (E:=toy) empty_config empty_config VNone
                  eq_refl)).
  intros d H. discriminate H.
Defined.

Lemma missing_token_exits_witness :
  main (E:=toy) no_token =
  mkRun (Exit 1) no_token
        [Called (C_read_config CONFIG_FILE); Called (C_setup_logging (VStr "backup.log"));
         Log ERROR Token_missing].
Proof.
  exact (missing_token_exits (E:=toy) no_token no_token no_token config_no_token
           (VStr "backup.log") (VStr "") eq_refl eq_refl eq_refl eq_refl eq_refl).
Defined.

Lemma get_organizations_keeps_order_witness :
  result (get_organizations (E:=toy) (mkClient (VStr "t0ken") 100)
            (VList [VStr "ghost"; VStr "acme"; VStr "acme"]) scenario) = Ok [acme; acme] /\
  world (get_organizations (E:=toy) (mkClient (VStr "t0ken") 100)
           (VList [VStr "ghost"; VStr "acme"; VStr "acme"]) scenario) = scenario.
Proof.
  apply (get_organizations_keeps_order (E:=toy) (mkClient (VStr "t0ken") 100)
           (fun n => fst (t_get_organization (mkClient (VStr "t0ken") 100) n scenario))
           scenario [VStr "ghost"; VStr "acme"; VStr "acme"]).
  - intros n [<-|[<-|[<-|[]]]]; reflexivity.
  - intros n e [<-|[<-|[<-|[]]]] H; simpl in H; inversion H; reflexivity.
Defined.

Lemma update_branch_always_returns_witness :
  result (clone_or_pull_repo (E:=toy) (clone_url svc_b) svc_b_path plain_dir) = Ok tt /\
  (outcomes (trace (clone_or_pull_repo (E:=toy) (clone_url svc_b) svc_b_path plain_dir)) =
   [(clone_url svc_b, Updated)] \/
   exists e,
     outcomes (trace (clone_or_pull_repo (E:=toy) (clone_url svc_b) svc_b_path plain_dir)) =
     [(clone_url svc_b, Failed e)]).
Proof.
  exact (update_branch_always_returns (E:=toy) (clone_url svc_b) svc_b_path
           plain_dir plain_dir eq_refl).
Defined.

Lemma inner_loop_reports_every_repository_witness :
  map fst (outcomes (trace (for_each (main_repo (E:=toy) "/backup" acme)
                                     [svc_a; svc_b] scenario))) =
  [clone_url svc_a; clone_url svc_b] /\
  exists_paths (calls_of (trace (for_each (main_repo (E:=toy) "/backup" acme)
                                          [svc_a; svc_b] scenario))) =
  ["/backup/acme/svc-a"; "/backup/acme/svc-b"] /\
  mkdir_paths (calls_of (trace (for_each (main_repo (E:=toy) "/backup" acme)
                                         [svc_a; svc_b] scenario))) =
  ["/backup/acme"; "/backup/acme"].
Proof.
  exact (inner_loop_reports_every_repository (E:=toy) "/backup" acme [svc_a; svc_b]
           scenario eq_refl).
Defined.

Lemma mkdir_failure_stops_the_loops_witness :
  for_each (main_org (E:=toy) "/backup") [acme] read_only_org_dir =
  mkRun (Raise (mkExc (OtherError "PermissionError") "/backup/acme")) read_only_org_dir
        ([Called (C_get_repos acme); Log INFO (Retrieved 2 "acme")] ++ [] ++
         [Called (C_mkdir "/backup/acme")]).
Proof.
  exact (mkdir_failure_stops_the_loops (E:=toy) "/backup" acme [] svc_a [svc_b] []
           read_only_org_dir read_only_org_dir read_only_org_dir read_only_org_dir
           _ [] _ eq_refl eq_refl eq_refl).
Defined.

Lemma listing_error_stops_the_loop_witness :
  for_each (main_org (E:=toy) "/backup") [acme] listing_breaks =
  mkRun (Raise (mkExc (OtherError "ConnectionError") "connection reset")) listing_breaks
        [Called (C_get_repos acme)].
Proof.
  exact (listing_error_stops_the_loop (E:=toy) "/backup" acme [] listing_breaks
           listing_breaks _ eq_refl eq_refl).
Defined.

Lemma completion_record_is_last_witness :
  exists t, trace (main (E:=toy) scenario) = t ++ [Log INFO Completed] /\
            ~ In (Log INFO Completed) t.
Proof. exact (completion_record_is_last (E:=toy) scenario tt eq_refl). Defined.

Lemma client_built_with_token_witness :
  100%Z = 100%Z /\ truthy (VStr "t0ken") = true.
Proof.
  apply (client_built_with_token (E:=toy) scenario (VStr "t0ken") 100).
  vm_compute. right. right. left. reflexivity.
Defined.

Lemma update_failure_never_stops_witness :
  result (main_repo (E:=toy) "/backup" acme svc_b plain_dir) = Ok tt /\
  for_each (main_repo (E:=toy) "/backup" acme) [svc_b; svc_a] plain_dir =
  prefixed (trace (main_repo (E:=toy) "/backup" acme svc_b plain_dir))
           (for_each (main_repo (E:=toy) "/backup" acme) [svc_a]
                     (world (main_repo (E:=toy) "/backup" acme svc_b plain_dir))).
Proof.
  eapply (update_failure_never_stops (E:=toy) "/backup" acme svc_b [svc_a] plain_dir);
    reflexivity.
Defined.

Lemma round_touches_listed_repositories_witness :
  Forall (round_event (E:=toy) "/backup" acme [svc_a; svc_b])
         (trace (main_org (E:=toy) "/backup" acme scenario)).
Proof.
  exact (round_touches_listed_repositories (E:=toy) "/backup" acme [svc_a; svc_b]
           scenario scenario eq_refl).
Defined.

End More_examples.
